(** * Research service: a shallow embedding of [python/research-service/main.py]

    The service has three route handlers: [compute] (count, last close and
    mean close of a list of candles), [health] and [meta].  Python floats are
    IEEE-754 binary64 values; they are modelled by the Standard Library's
    [spec_float] at precision 53 and maximal exponent 1024, Python integers
    by [Z], dictionaries by finite maps, and exceptions by an error monad
    that also records the order in which the built-in operations are
    evaluated.

    The source pins no interpreter, and the built-in [sum] does not add
    floats in the same way in all of them: CPython up to 3.11 adds the items
    one after the other, CPython 3.12 and later carries a compensation term
    for the rounding errors (Neumaier's summation).  The handlers therefore
    take the summation of the interpreter as a parameter, and both are
    modelled. *)

From Stdlib Require Import ZArith List Bool Lia.
From Stdlib Require Import Floats.SpecFloat.
From stdpp Require Import base strings gmap.

Local Open Scope Z_scope.

(** ** Binary64 arithmetic *)

Abbreviation float := spec_float.

Module Float.

Definition prec : Z := 53.
Definition emax : Z := 1024.

Definition add : float -> float -> float := SFadd prec emax.
Definition sub : float -> float -> float := SFsub prec emax.
Definition div : float -> float -> float := SFdiv prec emax.

(** [x <= y] as Python evaluates it: false as soon as a NaN is involved,
    and the two zeros are equal. *)
Definition leb : float -> float -> bool := SFleb.

(** Nearest binary64 value of [m * 2^e], ties to even. *)
Definition of_Z_scaled (m e : Z) : float := binary_normalize prec emax m e false.

Definition zero : float := S754_zero false.

Definition is_zero (x : float) : bool :=
  match x with S754_zero _ => true | _ => false end.

Definition is_infinity (x : float) : bool :=
  match x with S754_infinity _ => true | _ => false end.

Definition is_finite (x : float) : bool :=
  match x with S754_zero _ | S754_finite _ _ _ => true | _ => false end.

(** A float is well formed when its mantissa and exponent are the
    canonical binary64 ones. *)
Definition valid (x : float) : bool := valid_binary prec emax x.

(** Largest finite binary64 value, 1.7976931348623157e308. *)
Definition max_float : float := S754_finite false (2 ^ 53 - 1) 971.

End Float.

(** ** The fragment of Python the handlers use *)

Module Py.

Inductive exn : Type :=
| IndexError
| ZeroDivisionError
| OverflowError.

(** The built-in operations [compute] evaluates. *)
Inductive op : Type :=
| OpLen
| OpSubscript
| OpSum
| OpTrueDiv.

Inductive outcome (A : Type) : Type :=
| Return (a : A)
| Raise (e : exn).
Global Arguments Return {A} a.
Global Arguments Raise {A} e.

(** A computation: the operations evaluated, in evaluation order, and how
    it ended. *)
Definition M (A : Type) : Type := (list op * outcome A)%type.

Definition ret {A} (a : A) : M A := ([], Return a).
Definition raise {A} (e : exn) : M A := ([], Raise e).
Definition tick (o : op) : M unit := ([o], Return tt).

Definition bind {A B} (c : M A) (k : A -> M B) : M B :=
  match c with
  | (t, Return a) => let '(t', r) := k a in (t ++ t', r)
  | (t, Raise e) => (t, Raise e)
  end.

Definition trace {A} (c : M A) : list op := fst c.
Definition result {A} (c : M A) : outcome A := snd c.

End Py.

Notation "x <- c1 ;; c2" := (Py.bind c1 (fun x => c2))
  (at level 100, c1 at next level, right associativity).
Notation "c1 ;;; c2" := (Py.bind c1 (fun _ => c2))
  (at level 100, right associativity).

Module Builtins.
Import Py.

(** A Python number: [int] or [float]. *)
Inductive num : Type :=
| PyInt (z : Z)
| PyFloat (x : float).

(** Conversion of an integer operand to [float]: the nearest binary64,
    [OverflowError] when it is out of range. *)
Definition int_to_float (z : Z) : M float :=
  let x := Float.of_Z_scaled z 0 in
  if Float.is_infinity x then raise OverflowError else ret x.

(** [len(xs)] *)
Definition len {A} (xs : list A) : M Z :=
  tick OpLen ;;; ret (Z.of_nat (length xs)).

(** [xs[i]]: a negative index counts from the end. *)
Definition subscript {A} (xs : list A) (i : Z) : M A :=
  tick OpSubscript ;;;
  let n := Z.of_nat (length xs) in
  let j := if i <? 0 then i + n else i in
  if (j <? 0) || (n <=? j) then raise IndexError
  else match xs !! Z.to_nat j with
       | Some x => ret x
       | None => raise IndexError
       end.

(** How the built-in [sum] adds floats: one after the other (CPython up to
    3.11), or with a compensation term for the rounding errors (CPython 3.12
    and later). *)
Inductive summation : Type :=
| Forward
| Compensated.

(** [acc + x] for a float [x]. *)
Definition add_float (acc : num) (x : float) : M num :=
  match acc with
  | PyInt z => y <- int_to_float z ;; ret (PyFloat (Float.add y x))
  | PyFloat y => ret (PyFloat (Float.add y x))
  end.

(** The plain loop of [sum]: [acc = acc + x] for every item, from left to
    right. *)
Fixpoint sum_from (acc : num) (xs : list float) : M num :=
  match xs with
  | [] => ret acc
  | x :: xs' => acc' <- add_float acc x ;; sum_from acc' xs'
  end.

(** The float loop of the compensated [sum].  [f] is the running sum and
    [c] the compensation: at each item [x] the running sum becomes
    [t = f + x], and the rounding error of that addition, computed from the
    operand of larger magnitude, is added to [c].  At the end [c] is added
    to the running sum, unless it is zero, infinite or NaN. *)
Fixpoint sum_compensated (f c : float) (xs : list float) : float :=
  match xs with
  | [] => match c with S754_finite _ _ _ => Float.add f c | _ => f end
  | x :: xs' =>
      let t := Float.add f x in
      let e := if Float.leb (SFabs x) (SFabs f)
               then Float.add (Float.sub f t) x
               else Float.add (Float.sub x t) f in
      sum_compensated t (Float.add c e) xs'
  end.

(** [sum(xs)]: the items are added onto the integer 0.  With [Forward] the
    plain loop runs over all of them; with [Compensated] the first item is
    added to 0 in the plain way, which makes the running sum a float, and
    the compensated loop takes over from there. *)
Definition sum (py : summation) (xs : list float) : M num :=
  tick OpSum ;;;
  match py with
  | Forward => sum_from (PyInt 0) xs
  | Compensated =>
      match xs with
      | [] => ret (PyInt 0)
      | x :: xs' =>
          acc <- add_float (PyInt 0) x ;;
          match acc with
          | PyFloat f => ret (PyFloat (sum_compensated f Float.zero xs'))
          | PyInt _ => sum_from acc xs'
          end
      end
  end.

(** [a / b] for two integers: the correctly rounded quotient. *)
Definition int_true_divide (a b : Z) : M float :=
  if b =? 0 then raise ZeroDivisionError
  else
    let s := xorb (a <? 0) (b <? 0) in
    if a =? 0 then ret (S754_zero s)
    else
      let '(q, e, l) :=
        SFdiv_core_binary Float.prec Float.emax (Z.abs a) 0 (Z.abs b) 0 in
      let x := binary_round_aux Float.prec Float.emax s q e l in
      if Float.is_infinity x then raise OverflowError else ret x.

(** [a / b] where [b] is an integer. *)
Definition truediv (a : num) (b : Z) : M float :=
  tick OpTrueDiv ;;;
  match a with
  | PyInt z => int_true_divide z b
  | PyFloat x =>
      y <- int_to_float b ;;
      if Float.is_zero y then raise ZeroDivisionError
      else ret (Float.div x y)
  end.

(** Nearest integer to [a / b], ties to even ([0 <= a], [0 < b]). *)
Definition round_half_even (a b : Z) : Z :=
  let q := a / b in
  match 2 * (a mod b) ?= b with
  | Lt => q
  | Eq => if Z.even q then q else q + 1
  | Gt => q + 1
  end.

(** Nearest binary64 to [k / 100] for [0 < k]: the quotient is taken with
    64 fractional bits and a sticky bit for the remainder, then rounded
    once. *)
Definition of_hundredths (k : Z) : float :=
  let q := (k * 2 ^ 64) / 100 in
  let sticky := if (k * 2 ^ 64) mod 100 =? 0 then 0 else 1 in
  Float.of_Z_scaled (2 * q + sticky) (-65).

(** [round(x, 2)]: the exact value of [x] is rounded half-even to two
    decimals and the decimal is converted back to the nearest binary64;
    the sign of [x] is kept. *)
Definition round2 (x : float) : float :=
  match x with
  | S754_finite s m e =>
      if 0 <=? e then x
      else
        let k := round_half_even (100 * Z.pos m) (2 ^ (- e)) in
        if k =? 0 then S754_zero s
        else if s then SFopp (of_hundredths k) else of_hundredths k
  | _ => x
  end.

(** [os.getenv(key, default)] on a given environment. *)
Definition getenv (environ : gmap string string) (key default : string) : string :=
  match environ !! key with
  | Some v => v
  | None => default
  end.

End Builtins.

Import Py Builtins.

(** ** Domain model *)

Record Candle : Type := {
  time : Z;
  open : float;
  high : float;
  low : float;
  close : float;
  volume : float
}.

Record ComputeRequest : Type := { candles : list Candle }.

Record ComputeResponse : Type := {
  count : Z;
  last_close : float;
  average_close : float
}.

(** ** Core endpoint *)

(** [sum(closes) / len(cles := closes)] *)
Definition average_close_of (py : summation) (closes : list float) : M float :=
  s <- sum py closes ;;
  k <- len closes ;;
  truediv s k.

(** [compute], run by an interpreter whose [sum] is [py]: the keyword
    arguments of [ComputeResponse] are evaluated from left to right. *)
Definition compute (py : summation) (req : ComputeRequest) : M ComputeResponse :=
  let closes := map close (candles req) in
  n <- len closes ;;
  last <- subscript closes (-1) ;;
  avg <- average_close_of py closes ;;
  ret {| count := n; last_close := last; average_close := avg |}.

(** ** Liveness and metadata endpoints *)

(** Values stored in the dictionaries the handlers return. *)
Inductive value : Type :=
| VStr (s : string)
| VFloat (x : float).

(** [health] *)
Definition health : gmap string value := {[ "status" := VStr "ok" ]}.

(** What the operating system shows at one instant: the process environment
    and the reading of the wall clock, [time.time()]. *)
Record World : Type := {
  environ : gmap string string;
  time_time : float
}.

(** Module-level names, assigned once when the module is loaded. *)
Record Globals : Type := {
  VERSION : string;
  START_TIME : float
}.

Definition load (w : World) : Globals :=
  {| VERSION := getenv (environ w) "SERVICE_VERSION" "dev";
     START_TIME := time_time w |}.

Definition uptime_seconds (g : Globals) (w : World) : float :=
  round2 (Float.sub (time_time w) (START_TIME g)).

(** [meta] *)
Definition meta (g : Globals) (w : World) : gmap string value :=
  <[ "service" := VStr "research-service" ]>
  (<[ "status" := VStr "ok" ]>
  (<[ "uptime_seconds" := VFloat (uptime_seconds g w) ]>
  (<[ "version" := VStr (VERSION g) ]> ∅))).

(** ** The application *)

Inductive request : Type :=
| POST_compute (req : ComputeRequest)
| GET_health
| GET_meta.

Inductive content : Type :=
| JsonModel (r : ComputeResponse)
| JsonDict (d : gmap string value)
| ServerError.

Record response : Type := {
  status_code : Z;
  body : content
}.

(** Modelled from the spec: the hosting framework is not part of the source.
    A value returned by a handler is sent with status 200; an unhandled fault
    is converted into a generic server-error response. *)
Definition respond {A} (encode : A -> content) (r : outcome A) : response :=
  match r with
  | Return a => {| status_code := 200; body := encode a |}
  | Raise _ => {| status_code := 500; body := ServerError |}
  end.

(** One request, served in world [w].  No handler assigns a module-level
    name, so the globals come back as they were. *)
Definition serve (py : summation) (g : Globals) (w : World) (rq : request) :
  Globals * response :=
  match rq with
  | POST_compute req => (g, respond JsonModel (result (compute py req)))
  | GET_health => (g, respond JsonDict (Return health))
  | GET_meta => (g, respond JsonDict (Return (meta g w)))
  end.

(** A process lifetime: the module is loaded in [w0], then the requests are
    served one after the other, each in the world of its own instant. *)
Fixpoint serve_all (py : summation) (g : Globals) (calls : list (World * request)) :
  list response :=
  match calls with
  | [] => []
  | (w, rq) :: rest => let '(g', r) := serve py g w rq in r :: serve_all py g' rest
  end.

Definition run (py : summation) (w0 : World) (calls : list (World * request)) :
  list response :=
  serve_all py (load w0) calls.

(** A field of a dictionary response. *)
Definition response_field (r : response) (key : string) : option value :=
  match body r with
  | JsonDict d => d !! key
  | _ => None
  end.

(** ** Specification-level notions *)

(** The largest length a Python list can have, [sys.maxsize]. *)
Definition PY_SSIZE_T_MAX : Z := 2 ^ 63 - 1.

(** The arithmetic mean in forward summation order: the closes are added
    from left to right, starting from zero, and the sum is divided by the
    count. *)
Definition mean_forward (closes : list float) : float :=
  Float.div (fold_left Float.add closes Float.zero)
            (Float.of_Z_scaled (Z.of_nat (length closes)) 0).

(** The value of a finite float, in units of [2^-1074]: every well-formed
    finite binary64 is an integer number of such units. *)
Definition scaled (x : float) : Z :=
  match x with
  | S754_finite s m e => (if s then - Z.pos m else Z.pos m) * 2 ^ (e + 1074)
  | _ => 0
  end.

(** Neumaier's summation, on the pair of the running sum and the
    compensation: one item is added to the running sum, and the rounding
    error of that addition to the compensation. *)
Definition compensate (st : float * float) (x : float) : float * float :=
  let t := Float.add (fst st) x in
  (t, Float.add (snd st)
        (if Float.leb (SFabs x) (SFabs (fst st))
         then Float.add (Float.sub (fst st) t) x
         else Float.add (Float.sub x t) (fst st))).

(** The compensated total: the running sum plus the compensation, when
    the compensation is a finite float other than zero. *)
Definition compensated_total (st : float * float) : float :=
  if Float.is_finite (snd st) && negb (Float.is_zero (snd st))
  then Float.add (fst st) (snd st) else fst st.

(** The compensated sum of the closes: the running sum starts at the first
    close, added to zero, with no compensation. *)
Definition sum_neumaier (closes : list float) : float :=
  match closes with
  | [] => Float.zero
  | x :: xs =>
      compensated_total (fold_left compensate xs (Float.add Float.zero x, Float.zero))
  end.

(** The mean under compensated summation. *)
Definition mean_compensated (closes : list float) : float :=
  Float.div (sum_neumaier closes)
            (Float.of_Z_scaled (Z.of_nat (length closes)) 0).

(** The float [sum(closes)] is, on each interpreter, and the mean it
    gives. *)
Definition float_sum (py : summation) (closes : list float) : float :=
  match py with
  | Forward => fold_left Float.add closes Float.zero
  | Compensated => sum_neumaier closes
  end.

Definition mean_of (py : summation) (closes : list float) : float :=
  Float.div (float_sum py closes)
            (Float.of_Z_scaled (Z.of_nat (length closes)) 0).

(** The sum of the closes extended by their mean is finite and is exactly
    that mean times the new count: no rounding error is left in it. *)
Definition extended_sum_exact (py : summation) (closes : list float) : bool :=
  let n := Z.of_nat (length closes) in
  let a := mean_of py closes in
  let s' := float_sum py (closes ++ [a]) in
  Float.is_finite a && Float.is_finite s' && (scaled s' =? scaled a * (n + 1)).

(** Wall-clock readings that never go backwards. *)
Fixpoint nondecreasing (ts : list float) : bool :=
  match ts with
  | t1 :: rest =>
      match rest with
      | t2 :: _ => Float.leb t1 t2 && nondecreasing rest
      | [] => true
      end
  | [] => true
  end.

(** The readings of the wall clock over a process lifetime are finite
    binary64 values that never go backwards. *)
Definition clock_monotone (w0 : World) (calls : list (World * request)) : bool :=
  let ts := time_time w0 :: map (fun c => time_time (fst c)) calls in
  forallb (fun t => Float.is_finite t && Float.valid t) ts && nondecreasing ts.

(** Rounding of binary64 arithmetic, on values in units of [2^-1074]. *)

Definition finite_or_inf (s : bool) (k E : Z) : float :=
  if E <=? 971 then S754_finite s (Z.to_pos k) E else S754_infinity s.

(** The float nearest to [N] units, for [0 < N], with sign [s]. *)
Definition round_scaled (s : bool) (N : Z) : float :=
  let d := Zdigits2 N in
  if d <=? 53 then S754_finite s (Z.to_pos N) (-1074)
  else
    let n := d - 53 in
    let k := round_half_even N (2 ^ n) in
    if k =? 2 ^ 53 then finite_or_inf s (2 ^ 52) (n + 1 - 1074)
    else finite_or_inf s k (n - 1074).

Definition round_signed (N : Z) : float :=
  match N with
  | Z0 => S754_zero false
  | Z.pos _ => round_scaled false N
  | Z.neg _ => round_scaled true (- N)
  end.

(** [N] rounded to 53 significant bits. *)
Definition round_Z (N : Z) : Z :=
  let d := Zdigits2 N in
  if d <=? 53 then N else round_half_even N (2 ^ (d - 53)) * 2 ^ (d - 53).

(** [N] of either sign rounded to 53 significant bits. *)
Definition round_Z_signed (N : Z) : Z :=
  match N with
  | 0 => 0
  | Z.pos _ => round_Z N
  | Z.neg _ => - round_Z (- N)
  end.

(** The argument of the final rounding in [of_hundredths], in units. *)
Definition hundredths_scaled (k : Z) : Z :=
  (2 * ((k * 2 ^ 64) / 100) + (if (k * 2 ^ 64) mod 100 =? 0 then 0 else 1)) * 2 ^ 1009.

(** Equality up to the sign of zero. *)
Definition same_value (x y : float) : Prop :=
  x = y \/ (Float.is_zero x = true /\ Float.is_zero y = true).

(** Non-negative well-formed values: zeros, positive canonical floats and
    the positive infinity. *)
Definition nonneg (x : float) : bool :=
  match x with
  | S754_zero _ => true
  | S754_infinity s => negb s
  | S754_nan => false
  | S754_finite s m e => negb s && bounded Float.prec Float.emax m e
  end.

(** ** Sample data *)

Definition bar (t : Z) (x : float) : Candle :=
  {| time := t; open := x; high := x; low := x; close := x; volume := x |}.

(** 0.1, its successor 0.10000000000000002 and its predecessor
    0.09999999999999999 *)
Definition f0_1 : float := S754_finite false 7205759403792794 (-56).
Definition f0_1_pred : float := S754_finite false 7205759403792793 (-56).

(** 0.125 and 0.12 *)
Definition f0_125 : float := S754_finite false 4503599627370496 (-55).
Definition f0_12 : float := S754_finite false 8646911284551352 (-56).

(** 5.0, 10.0, 20.0 and 30.0 *)
Definition f5 : float := S754_finite false 5629499534213120 (-50).
Definition f10 : float := S754_finite false 5629499534213120 (-49).
Definition f20 : float := S754_finite false 5629499534213120 (-48).
Definition f30 : float := S754_finite false 8444249301319680 (-48).

(** Closes 10.0, 20.0, 30.0; the timestamps are not in increasing order. *)
Definition sample_request : ComputeRequest :=
  {| candles := [bar 3 f10; bar 1 f20; bar 2 f30] |}.

(** The same closes under other timestamps, opens, highs, lows and volumes. *)
Definition sample_request' : ComputeRequest :=
  {| candles :=
       [ {| time := 7; open := f0_1; high := f30; low := Float.zero;
            close := f10; volume := f20 |};
         {| time := 8; open := f10; high := f20; low := f0_1;
            close := f20; volume := Float.zero |};
         {| time := 9; open := f30; high := f30; low := f10;
            close := f30; volume := f0_1 |} ] |}.

(** Two candles closing at 0.1. *)
Definition tenths_request : ComputeRequest :=
  {| candles := [bar 1 f0_1; bar 2 f0_1] |}.

(** Ten candles closing at 0.1. *)
Definition ten_tenths_request : ComputeRequest :=
  {| candles := map (fun t => bar t f0_1) [1; 2; 3; 4; 5; 6; 7; 8; 9; 10] |}.

(** Wall-clock readings 1700000000.0, 1700000012.5 and 1699999990.0. *)
Definition t_boot : float := Float.of_Z_scaled 1700000000 0.
Definition t_later : float := Float.of_Z_scaled 3400000025 (-1).
Definition t_back : float := Float.of_Z_scaled 1699999990 0.

Definition w_boot : World :=
  {| environ := {[ "SERVICE_VERSION" := "1.4.2" ]}; time_time := t_boot |}.
Definition w_later : World := {| environ := ∅; time_time := t_later |}.
Definition w_back : World := {| environ := ∅; time_time := t_back |}.

(** ** Further notions and sample data *)

(** 1.0, the float the count of a single candle converts to. *)
Definition f1 : float := S754_finite false 4503599627370496 (-52).

(** 2.0, then 1.6666666666666667, the nearest float to 5/3, and four times
    that float, 6.666666666666667. *)
Definition f2 : float := S754_finite false 4503599627370496 (-51).

(** Closes 1.0, 2.0, 2.0: their mean 5/3 is rounded. *)
Definition thirds_request : ComputeRequest :=
  {| candles := [bar 1 f1; bar 2 f2; bar 3 f2] |}.

(** A request with a NaN close in the middle. *)
Definition nan_request : ComputeRequest :=
  {| candles := [bar 1 f10; bar 2 S754_nan; bar 3 f30] |}.

(** Zeros of both signs. *)
Definition zeros_request : ComputeRequest :=
  {| candles := [bar 1 (S754_zero true); bar 2 (S754_zero false);
                 bar 3 (S754_zero true)] |}.

(** * Facts about binary64 rounding

    The operations of [SpecFloat] work on mantissas and exponents.  This
    part relates them to integer arithmetic on values counted in units of
    [2^-1074], the spacing of the smallest binary64 numbers: rounding is
    characterised by [round_scaled], shown monotone, and shown to return
    canonical floats. *)

(** ** Powers of two and bit lengths *)

Lemma pow2_pos n : 0 <= n -> 0 < 2 ^ n.
Proof. intros. apply Z.pow_pos_nonneg; lia. Qed.

Lemma pow2_le a b : 0 <= a <= b -> 2 ^ a <= 2 ^ b.
Proof. intros. apply Z.pow_le_mono_r; lia. Qed.

Lemma pow2_lt a b : 0 <= a < b -> 2 ^ a < 2 ^ b.
Proof. intros. apply Z.pow_lt_mono_r; lia. Qed.

Lemma fexp_eq e : fexp Float.prec Float.emax e = Z.max (e - 53) (-1074).
Proof. reflexivity. Qed.

Lemma digits2_pos_bounds p :
  2 ^ (Z.pos (digits2_pos p) - 1) <= Z.pos p < 2 ^ Z.pos (digits2_pos p).
Proof.
  induction p as [p IH | p IH |]; simpl digits2_pos.
  - rewrite Pos2Z.inj_succ, Pos2Z.inj_xI.
    replace (Z.succ (Z.pos (digits2_pos p)) - 1) with (Z.succ (Z.pos (digits2_pos p) - 1)) by lia.
    rewrite !Z.pow_succ_r by lia. lia.
  - rewrite Pos2Z.inj_succ. change (Z.pos p~0) with (2 * Z.pos p).
    replace (Z.succ (Z.pos (digits2_pos p)) - 1) with (Z.succ (Z.pos (digits2_pos p) - 1)) by lia.
    rewrite !Z.pow_succ_r by lia. lia.
  - simpl. lia.
Qed.

Lemma Zdigits2_bounds m :
  0 < m -> 0 < Zdigits2 m /\ 2 ^ (Zdigits2 m - 1) <= m < 2 ^ Zdigits2 m.
Proof.
  destruct m as [|p|p]; try lia. intros _. simpl Zdigits2.
  split; [lia | apply digits2_pos_bounds].
Qed.

Lemma pow2_lt_inv a b : 0 <= b -> 2 ^ a < 2 ^ b -> a < b.
Proof.
  intros Hb H. destruct (Z_lt_le_dec a b) as [|Hle]; [assumption|].
  assert (2 ^ b <= 2 ^ a) by (apply Z.pow_le_mono_r; lia). lia.
Qed.

Lemma Zdigits2_unique m d :
  0 < d -> 2 ^ (d - 1) <= m < 2 ^ d -> Zdigits2 m = d.
Proof.
  intros Hd [Hlo Hhi].
  assert (Hm : 0 < m) by (pose proof (Z.pow_pos_nonneg 2 (d - 1)); lia).
  destruct (Zdigits2_bounds m Hm) as [Hd' [Hlo' Hhi']].
  assert (Zdigits2 m - 1 < d) by (apply pow2_lt_inv; lia).
  assert (d - 1 < Zdigits2 m) by (apply pow2_lt_inv; lia).
  lia.
Qed.

Lemma Zdigits2_mul_pow2 m j :
  0 < m -> 0 <= j -> Zdigits2 (m * 2 ^ j) = Zdigits2 m + j.
Proof.
  intros Hm Hj. destruct (Zdigits2_bounds m Hm) as [Hd [Hlo Hhi]].
  apply Zdigits2_unique; [lia|].
  replace (Zdigits2 m + j - 1) with (Zdigits2 m - 1 + j) by lia.
  rewrite !Z.pow_add_r by lia.
  pose proof (Z.pow_pos_nonneg 2 j). nia.
Qed.

Lemma Zdigits2_div_pow2 m n :
  0 < m -> 0 <= n < Zdigits2 m -> Zdigits2 (m / 2 ^ n) = Zdigits2 m - n.
Proof.
  intros Hm Hn. destruct (Zdigits2_bounds m Hm) as [Hd [Hlo Hhi]].
  pose proof (Z.pow_pos_nonneg 2 n ltac:(lia) ltac:(lia)) as Hp.
  apply Zdigits2_unique; [lia|]. split.
  - apply Z.div_le_lower_bound; [lia|].
    rewrite <- Z.pow_add_r by lia. replace (n + (Zdigits2 m - n - 1)) with (Zdigits2 m - 1) by lia. lia.
  - apply Z.div_lt_upper_bound; [lia|].
    rewrite <- Z.pow_add_r by lia. replace (n + (Zdigits2 m - n)) with (Zdigits2 m) by lia. lia.
Qed.

(** ** Shifting mantissas *)

Lemma iter_pos_nat {A} (f : A -> A) p x :
  SpecFloat.iter_pos f p x = Nat.iter (Pos.to_nat p) f x.
Proof.
  revert x. induction p as [p IH | p IH |]; intros x; simpl SpecFloat.iter_pos.
  - rewrite !IH, Pos2Nat.inj_xI.
    replace (S (2 * Pos.to_nat p)) with (Pos.to_nat p + (Pos.to_nat p + 1))%nat by lia.
    rewrite !Nat.iter_add. reflexivity.
  - rewrite !IH, Pos2Nat.inj_xO.
    replace (2 * Pos.to_nat p)%nat with (Pos.to_nat p + Pos.to_nat p)%nat by lia.
    rewrite Nat.iter_add. reflexivity.
  - reflexivity.
Qed.

Lemma pos_iter_xO m d : Z.pos (Pos.iter xO m d) = Z.pos m * 2 ^ Z.pos d.
Proof.
  induction d as [|d IH] using Pos.peano_ind.
  - simpl. lia.
  - rewrite Pos.iter_succ. change (Z.pos (Pos.iter xO m d)~0) with (2 * Z.pos (Pos.iter xO m d)).
    rewrite IH, Pos2Z.inj_succ, Z.pow_succ_r by lia. lia.
Qed.

Lemma shr_1_spec m r s :
  0 <= m ->
  shr_1 {| shr_m := m; shr_r := r; shr_s := s |} =
  {| shr_m := m / 2; shr_r := Z.odd m; shr_s := r || s |}.
Proof.
  intros Hm. rewrite <- Z.div2_div.
  destruct m as [|p|p]; [reflexivity | | lia].
  destruct p; reflexivity.
Qed.

(** [n] shifts divide the mantissa by [2^n], whatever the location bits. *)
Lemma iter_shr_m n mrs :
  0 <= shr_m mrs ->
  shr_m (Nat.iter n shr_1 mrs) = shr_m mrs / 2 ^ Z.of_nat n.
Proof.
  intros Hm. induction n as [|n IH].
  - simpl. now rewrite Z.div_1_r.
  - rewrite Nat2Z.inj_succ, Z.pow_succ_r by lia. simpl Nat.iter.
    destruct (Nat.iter n shr_1 mrs) as [m' r' s'] eqn:E. simpl in IH.
    assert (0 <= m') by (rewrite IH; apply Z.div_pos; [lia | apply Z.pow_pos_nonneg; lia]).
    rewrite shr_1_spec by assumption. simpl. rewrite IH.
    rewrite Z.div_div by (try apply Z.pow_pos_nonneg; lia). f_equal. lia.
Qed.


Lemma mod_double m P : 0 < P -> m mod (2 * P) = m mod P + P * ((m / P) mod 2).
Proof. intros HP. rewrite (Z.mul_comm 2 P). apply Z.rem_mul_r; lia. Qed.

Lemma odd_mod2 q : Z.odd q = (q mod 2 =? 1).
Proof.
  rewrite Zmod_odd. destruct (Z.odd q); reflexivity.
Qed.

(** Shifting an exact mantissa [S n] times: the quotient, the round bit and
    the sticky bit. *)
Lemma iter_shr_exact n m :
  0 <= m ->
  Nat.iter (S n) shr_1 {| shr_m := m; shr_r := false; shr_s := false |} =
  {| shr_m := m / 2 ^ Z.of_nat (S n);
     shr_r := 2 ^ Z.of_nat n <=? m mod 2 ^ Z.of_nat (S n);
     shr_s := negb (m mod 2 ^ Z.of_nat n =? 0) |}.
Proof.
  intros Hm. induction n as [|n IH].
  - change (Nat.iter 1 shr_1 ?x) with (shr_1 x). rewrite shr_1_spec by assumption.
    change (2 ^ Z.of_nat 1) with 2. change (2 ^ Z.of_nat 0) with 1.
    rewrite Z.mod_1_r. f_equal.
    rewrite odd_mod2. pose proof (Z.mod_pos_bound m 2 ltac:(lia)).
    destruct (Z.eqb_spec (m mod 2) 1), (Z.leb_spec 1 (m mod 2)); lia.
  - change (Nat.iter (S (S n)) shr_1 ?x) with (shr_1 (Nat.iter (S n) shr_1 x)).
    rewrite IH.
    set (P := 2 ^ Z.of_nat n).
    assert (HP : 0 < P) by (apply Z.pow_pos_nonneg; lia).
    assert (E1 : 2 ^ Z.of_nat (S n) = 2 * P)
      by (rewrite Nat2Z.inj_succ, Z.pow_succ_r by lia; reflexivity).
    assert (E2 : 2 ^ Z.of_nat (S (S n)) = 2 * (2 * P))
      by (rewrite Nat2Z.inj_succ, Z.pow_succ_r, E1 by lia; reflexivity).
    rewrite E1, E2.
    rewrite shr_1_spec by (apply Z.div_pos; lia).
    rewrite Z.div_div by lia.
    replace (2 * P * 2) with (2 * (2 * P)) by lia.
    f_equal.
    + rewrite (mod_double m (2 * P)) by lia. rewrite odd_mod2.
      pose proof (Z.mod_pos_bound m (2 * P) ltac:(lia)).
      assert (Hb : (m / (2 * P)) mod 2 = 0 \/ (m / (2 * P)) mod 2 = 1)
        by (pose proof (Z.mod_pos_bound (m / (2 * P)) 2 ltac:(lia)); lia).
      destruct Hb as [-> | ->]; simpl (_ =? _);
        destruct (Z.leb_spec (2 * P) (m mod (2 * P) + 2 * P * 0)),
                 (Z.leb_spec (2 * P) (m mod (2 * P) + 2 * P * 1)); try reflexivity; lia.
    + rewrite (mod_double m P) by lia.
      pose proof (Z.mod_pos_bound m P ltac:(lia)).
      assert (Hb : (m / P) mod 2 = 0 \/ (m / P) mod 2 = 1)
        by (pose proof (Z.mod_pos_bound (m / P) 2 ltac:(lia)); lia).
      destruct Hb as [-> | ->];
        [ destruct (Z.leb_spec P (m mod P + P * 0)), (Z.eqb_spec (m mod P) 0),
                   (Z.eqb_spec (m mod P + P * 0) 0)
        | destruct (Z.leb_spec P (m mod P + P * 1)), (Z.eqb_spec (m mod P) 0),
                   (Z.eqb_spec (m mod P + P * 1) 0) ];
        simpl; try reflexivity; lia.
Qed.

Lemma round_shr_exact n m :
  0 <= m ->
  let mrs := Nat.iter (S n) shr_1 {| shr_m := m; shr_r := false; shr_s := false |} in
  round_nearest_even (shr_m mrs) (loc_of_shr_record mrs) =
  round_half_even m (2 ^ Z.of_nat (S n)).
Proof.
  intros Hm mrs. subst mrs. rewrite iter_shr_exact by assumption.
  unfold round_half_even.
  set (P := 2 ^ Z.of_nat n).
  assert (HP : 0 < P) by (apply Z.pow_pos_nonneg; lia).
  assert (E1 : 2 ^ Z.of_nat (S n) = 2 * P)
    by (rewrite Nat2Z.inj_succ, Z.pow_succ_r by lia; reflexivity).
  rewrite E1. cbn [shr_m loc_of_shr_record].
  rewrite (mod_double m P) by lia.
  pose proof (Z.mod_pos_bound m P ltac:(lia)).
  assert (Hb : (m / P) mod 2 = 0 \/ (m / P) mod 2 = 1)
    by (pose proof (Z.mod_pos_bound (m / P) 2 ltac:(lia)); lia).
  destruct Hb as [-> | ->];
    [ destruct (Z.leb_spec P (m mod P + P * 0)), (Z.eqb_spec (m mod P) 0),
               (Z.compare_spec (2 * (m mod P + P * 0)) (2 * P))
    | destruct (Z.leb_spec P (m mod P + P * 1)), (Z.eqb_spec (m mod P) 0),
               (Z.compare_spec (2 * (m mod P + P * 1)) (2 * P)) ];
    simpl; try reflexivity; lia.
Qed.

Lemma shl_align_spec m e e' :
  snd (shl_align m e e') = Z.min e e' /\
  Z.pos (fst (shl_align m e e')) = Z.pos m * 2 ^ (e - Z.min e e').
Proof.
  unfold shl_align. destruct (e' - e) as [|d|d] eqn:E; simpl.
  - replace (Z.min e e') with e by lia. rewrite Z.sub_diag. simpl. lia.
  - replace (Z.min e e') with e by lia. rewrite Z.sub_diag. simpl. lia.
  - replace (Z.min e e') with e' by lia. split; [reflexivity|].
    rewrite pos_iter_xO. f_equal. f_equal. lia.
Qed.

(** ** Rounding an exact mantissa *)

Lemma round_exact_canonical s p e :
  fexp Float.prec Float.emax (Z.pos (digits2_pos p) + e) = e ->
  binary_round_aux Float.prec Float.emax s (Z.pos p) e loc_Exact =
  finite_or_inf s (Z.pos p) e.
Proof.
  intros H. unfold binary_round_aux, shr_fexp. simpl Zdigits2.
  rewrite H, Z.sub_diag. cbn [shr shr_record_of_loc shr_m loc_of_shr_record round_nearest_even].
  simpl Zdigits2. rewrite H, Z.sub_diag. cbn [shr shr_record_of_loc shr_m].
  reflexivity.
Qed.

Lemma round_half_even_bounds a b :
  0 <= a -> 0 < b -> a / b <= round_half_even a b <= a / b + 1.
Proof.
  intros Ha Hb. unfold round_half_even.
  destruct (2 * (a mod b) ?= b); [destruct (Z.even (a / b))| |]; lia.
Qed.

Lemma round_exact_shift s p e n :
  0 < n ->
  Z.pos (digits2_pos p) = 53 + n ->
  -1074 <= e + n ->
  binary_round_aux Float.prec Float.emax s (Z.pos p) e loc_Exact =
  let k := round_half_even (Z.pos p) (2 ^ n) in
  if k =? 2 ^ 53 then finite_or_inf s (2 ^ 52) (e + n + 1)
  else finite_or_inf s k (e + n).
Proof.
  intros Hn Hd He.
  assert (Hq : 2 ^ 52 <= Z.pos p / 2 ^ n < 2 ^ 53).
  { pose proof (Zdigits2_div_pow2 (Z.pos p) n ltac:(lia)) as Hdiv.
    simpl Zdigits2 in Hdiv. rewrite Hd in Hdiv. specialize (Hdiv ltac:(lia)).
    assert (Hpos : 0 < Z.pos p / 2 ^ n).
    { pose proof (Z.div_pos (Z.pos p) (2 ^ n) ltac:(lia) ltac:(apply Z.pow_pos_nonneg; lia)).
      destruct (Z.pos p / 2 ^ n) eqn:E; simpl in Hdiv; lia. }
    destruct (Zdigits2_bounds _ Hpos) as [_ Hb]. rewrite Hdiv in Hb.
    replace (53 + n - n - 1) with 52 in Hb by lia.
    replace (53 + n - n) with 53 in Hb by lia. exact Hb. }
  pose proof (round_half_even_bounds (Z.pos p) (2 ^ n) ltac:(lia)
                ltac:(apply Z.pow_pos_nonneg; lia)) as Hk.
  unfold binary_round_aux, shr_fexp at 1. simpl Zdigits2.
  rewrite Hd, fexp_eq.
  replace (Z.max (53 + n + e - 53) (-1074) - e) with n by lia.
  destruct n as [|np|np]; try lia.
  cbn [shr shr_record_of_loc]. rewrite iter_pos_nat.
  destruct (Pos.to_nat np) as [|n'] eqn:En; [lia|].
  assert (EN : Z.of_nat (S n') = Z.pos np) by lia.
  pose proof (round_shr_exact n' (Z.pos p) ltac:(lia)) as Hr. cbv zeta in Hr.
  rewrite Hr, EN. clear Hr.
  set (k := round_half_even (Z.pos p) (2 ^ Z.pos np)) in *. cbv zeta.
  unfold shr_fexp. rewrite fexp_eq.
  destruct (Z.eqb_spec k (2 ^ 53)) as [Ek | Ek].
  - rewrite Ek. change (Zdigits2 (2 ^ 53)) with 54.
    replace (Z.max (54 + (e + Z.pos np) - 53) (-1074) - (e + Z.pos np)) with 1 by lia.
    reflexivity.
  - assert (Hd53 : Zdigits2 k = 53) by (apply Zdigits2_unique; lia).
    rewrite Hd53.
    replace (Z.max (53 + (e + Z.pos np) - 53) (-1074) - (e + Z.pos np)) with 0 by lia.
    cbn [shr shr_record_of_loc shr_m]. unfold finite_or_inf.
    destruct k as [|kp|kp]; try lia. reflexivity.
Qed.

Lemma round_half_even_scale a b c :
  0 < b -> 0 < c -> round_half_even (a * c) (b * c) = round_half_even a b.
Proof.
  intros Hb Hc. unfold round_half_even.
  rewrite Z.div_mul_cancel_r by lia.
  rewrite Zmult_mod_distr_r.
  replace (2 * (a mod b * c)) with (2 * (a mod b) * c) by lia.
  rewrite <- Zmult_compare_compat_r by lia. reflexivity.
Qed.

Lemma round_half_even_exact a b :
  0 < b -> round_half_even (a * b) b = a.
Proof.
  intros Hb. unfold round_half_even.
  rewrite Z.div_mul, Z.mod_mul by lia.
  replace (2 * 0 ?= b) with Lt by (symmetry; apply Z.compare_lt_iff; lia).
  reflexivity.
Qed.

Lemma binary_round_spec s m e :
  -1074 <= e ->
  binary_round Float.prec Float.emax s m e = round_scaled s (Z.pos m * 2 ^ (e + 1074)).
Proof.
  intros He. unfold binary_round, round_scaled.
  rewrite Zdigits2_mul_pow2 by lia. simpl Zdigits2.
  set (d := Z.pos (digits2_pos m)). assert (Hd : 0 < d) by (subst d; lia).
  pose proof (shl_align_spec m e (fexp Float.prec Float.emax (d + e))) as [Hs1 Hs2].
  destruct (shl_align m e (fexp Float.prec Float.emax (d + e))) as [mz ez].
  simpl in Hs1, Hs2. rewrite <- Hs1 in Hs2. rewrite fexp_eq in Hs1.
  assert (Hdz : Z.pos (digits2_pos mz) = d + (e - ez)).
  { change (Z.pos (digits2_pos mz)) with (Zdigits2 (Z.pos mz)). rewrite Hs2.
    rewrite Zdigits2_mul_pow2 by lia. reflexivity. }
  destruct (Z.leb_spec (d + (e + 1074)) 53) as [Hle | Hgt].
  - (* subnormal range: the exponent is the minimal one *)
    assert (ez = -1074) by lia. clear Hs1. subst ez.
    rewrite round_exact_canonical by (rewrite fexp_eq, Hdz; lia).
    unfold finite_or_inf. simpl (_ <=? _).
    replace (e + 1074) with (e - -1074) by lia. rewrite <- Hs2. reflexivity.
  - destruct (Z_le_dec d 53) as [Hd53 | Hd53].
    + (* short mantissa: aligned to 53 bits, nothing is lost *)
      assert (ez = d + e - 53) by lia. clear Hs1.
      rewrite round_exact_canonical by (rewrite fexp_eq, Hdz; lia).
      replace (Z.pos m * 2 ^ (e + 1074)) with (Z.pos mz * 2 ^ (d + (e + 1074) - 53)).
      2:{ rewrite Hs2, <- Z.mul_assoc, <- Z.pow_add_r by lia. f_equal. f_equal. lia. }
      rewrite round_half_even_exact by (apply Z.pow_pos_nonneg; lia).
      assert (Z.pos mz <> 2 ^ 53).
      { pose proof (digits2_pos_bounds mz) as Hb. rewrite Hdz in Hb.
        replace (d + (e - ez)) with 53 in Hb by lia. lia. }
      destruct (Z.eqb_spec (Z.pos mz) (2 ^ 53)); [lia|].
      f_equal. lia.
    + (* long mantissa: shifted right and rounded *)
      assert (ez = e) by lia. clear Hs1. subst ez.
      assert (mz = m) by (rewrite Z.sub_diag in Hs2; simpl in Hs2; lia). subst mz.
      rewrite (round_exact_shift s m e (d - 53)) by (fold d; lia).
      cbv zeta.
      replace (2 ^ (d + (e + 1074) - 53)) with (2 ^ (d - 53) * 2 ^ (e + 1074))
        by (rewrite <- Z.pow_add_r by lia; f_equal; lia).
      rewrite round_half_even_scale by (apply Z.pow_pos_nonneg; lia).
      replace (e + (d - 53) + 1) with (d + (e + 1074) - 53 + 1 - 1074) by lia.
      replace (e + (d - 53)) with (d + (e + 1074) - 53 - 1074) by lia.
      reflexivity.
Qed.

(** ** Canonical floats and their order *)

Lemma bounded_inv m e :
  bounded Float.prec Float.emax m e = true ->
  -1074 <= e <= 971 /\ Z.pos (digits2_pos m) <= 53 /\
  (Z.pos (digits2_pos m) = 53 \/ e = -1074).
Proof.
  unfold bounded, canonical_mantissa. rewrite fexp_eq.
  intros H. apply andb_true_iff in H as [H1 H2].
  apply Z.eqb_eq in H1. apply Z.leb_le in H2.
  change (Float.emax - Float.prec) with 971 in H2. lia.
Qed.

Lemma bounded_intro m e :
  -1074 <= e <= 971 -> Z.pos (digits2_pos m) <= 53 ->
  (Z.pos (digits2_pos m) = 53 \/ e = -1074) ->
  bounded Float.prec Float.emax m e = true.
Proof.
  intros He Hd Hc. unfold bounded, canonical_mantissa. rewrite fexp_eq.
  apply andb_true_iff. split; [apply Z.eqb_eq | apply Z.leb_le].
  - lia.
  - change (Float.emax - Float.prec) with 971. lia.
Qed.

(** ** Rounding on values *)

Lemma round_half_even_mono a1 a2 b :
  0 < b -> a1 <= a2 -> round_half_even a1 b <= round_half_even a2 b.
Proof.
  intros Hb Ha. unfold round_half_even.
  pose proof (Z.div_le_mono a1 a2 b Hb Ha) as Hq.
  pose proof (Z.div_mod a1 b ltac:(lia)) as E1.
  pose proof (Z.div_mod a2 b ltac:(lia)) as E2.
  pose proof (Z.mod_pos_bound a1 b Hb). pose proof (Z.mod_pos_bound a2 b Hb).
  destruct (Z.eq_dec (a1 / b) (a2 / b)) as [Eq | Ne].
  - rewrite Eq in *.
    destruct (Z.compare_spec (2 * (a1 mod b)) b), (Z.compare_spec (2 * (a2 mod b)) b);
      destruct (Z.even (a2 / b)); nia.
  - destruct (Z.compare_spec (2 * (a1 mod b)) b), (Z.compare_spec (2 * (a2 mod b)) b);
      destruct (Z.even (a1 / b)), (Z.even (a2 / b)); lia.
Qed.

Lemma round_mantissa_bounds N :
  0 < N -> 53 < Zdigits2 N ->
  2 ^ 52 <= round_half_even N (2 ^ (Zdigits2 N - 53)) <= 2 ^ 53.
Proof.
  intros HN Hd.
  pose proof (Zdigits2_div_pow2 N (Zdigits2 N - 53) HN ltac:(lia)) as Hdiv.
  replace (Zdigits2 N - (Zdigits2 N - 53)) with 53 in Hdiv by lia.
  pose proof (pow2_pos (Zdigits2 N - 53) ltac:(lia)) as HP.
  assert (Hpos : 0 < N / 2 ^ (Zdigits2 N - 53)).
  { pose proof (Z.div_pos N (2 ^ (Zdigits2 N - 53)) ltac:(lia) HP).
    destruct (N / 2 ^ (Zdigits2 N - 53)) eqn:E; simpl in Hdiv; lia. }
  destruct (Zdigits2_bounds _ Hpos) as [_ Hb]. rewrite Hdiv in Hb.
  change (53 - 1) with 52 in Hb.
  pose proof (round_half_even_bounds N (2 ^ (Zdigits2 N - 53)) ltac:(lia) HP). lia.
Qed.

Lemma round_Z_bounds N :
  0 < N -> 2 ^ (Zdigits2 N - 1) <= round_Z N <= 2 ^ Zdigits2 N.
Proof.
  intros HN. destruct (Zdigits2_bounds N HN) as [Hd Hb].
  unfold round_Z. destruct (Z.leb_spec (Zdigits2 N) 53) as [Hle | Hgt]; [lia|].
  pose proof (round_mantissa_bounds N HN Hgt) as Hk.
  pose proof (pow2_pos (Zdigits2 N - 53) ltac:(lia)) as HP.
  replace (Zdigits2 N - 1) with (52 + (Zdigits2 N - 53)) by lia.
  replace (2 ^ Zdigits2 N) with (2 ^ 53 * 2 ^ (Zdigits2 N - 53))
    by (rewrite <- Z.pow_add_r by lia; f_equal; lia).
  rewrite Z.pow_add_r by lia. nia.
Qed.

Lemma Zdigits2_mono a b : 0 < a <= b -> Zdigits2 a <= Zdigits2 b.
Proof.
  intros H. destruct (Zdigits2_bounds a ltac:(lia)) as [Ha Hba].
  destruct (Zdigits2_bounds b ltac:(lia)) as [Hb Hbb].
  assert (Zdigits2 a - 1 < Zdigits2 b) by (apply pow2_lt_inv; lia). lia.
Qed.

Lemma round_Z_mono N1 N2 : 0 < N1 <= N2 -> round_Z N1 <= round_Z N2.
Proof.
  intros H. pose proof (Zdigits2_mono N1 N2 H) as Hd.
  destruct (Zdigits2_bounds N1 ltac:(lia)) as [Hd1 Hb1].
  destruct (Zdigits2_bounds N2 ltac:(lia)) as [Hd2 Hb2].
  destruct (Z.eq_dec (Zdigits2 N1) (Zdigits2 N2)) as [E | NE].
  - unfold round_Z. rewrite E.
    destruct (Z.leb_spec (Zdigits2 N2) 53); [lia|].
    apply Z.mul_le_mono_nonneg_r; [pose proof (pow2_pos (Zdigits2 N2 - 53)); lia|].
    apply round_half_even_mono; [apply pow2_pos|]; lia.
  - pose proof (round_Z_bounds N1 ltac:(lia)). pose proof (round_Z_bounds N2 ltac:(lia)).
    pose proof (pow2_le (Zdigits2 N1) (Zdigits2 N2 - 1) ltac:(lia)). lia.
Qed.

(** What [round_scaled] returns: a canonical finite float of value
    [round_Z N], or the infinity when that value is out of range. *)
Lemma round_scaled_cases s N :
  0 < N ->
  (round_Z N < 2 ^ 2098 /\
   exists m e, round_scaled s N = S754_finite s m e /\
               bounded Float.prec Float.emax m e = true /\
               Z.pos m * 2 ^ (e + 1074) = round_Z N) \/
  (2 ^ 2098 <= round_Z N /\ round_scaled s N = S754_infinity s).
Proof.
  intros HN. destruct (Zdigits2_bounds N HN) as [Hd Hb].
  unfold round_scaled, round_Z.
  destruct (Z.leb_spec (Zdigits2 N) 53) as [Hle | Hgt].
  - left. split.
    + pose proof (pow2_le (Zdigits2 N) 53 ltac:(lia)).
      pose proof (pow2_lt 53 2098 ltac:(lia)). lia.
    + exists (Z.to_pos N), (-1074). split; [reflexivity|].
      assert (EN : Z.pos (Z.to_pos N) = N) by lia.
      split.
      * apply bounded_intro; [lia | |right; reflexivity].
        change (Z.pos (digits2_pos (Z.to_pos N))) with (Zdigits2 (Z.pos (Z.to_pos N))).
        rewrite EN. lia.
      * rewrite EN. change (2 ^ (-1074 + 1074)) with 1. lia.
  - set (n := Zdigits2 N - 53). assert (Hn : 0 < n) by (subst n; lia).
    pose proof (round_mantissa_bounds N HN Hgt) as Hk. fold n in Hk.
    set (k := round_half_even N (2 ^ n)) in *.
    pose proof (pow2_pos n ltac:(lia)) as HP.
    unfold finite_or_inf.
    destruct (Z.eqb_spec k (2 ^ 53)) as [Ek | Ek].
    + destruct (Z.leb_spec (n + 1 - 1074) 971) as [Hf | Hi].
      * left. rewrite Ek. split.
        { rewrite <- Z.pow_add_r by lia. apply pow2_lt. lia. }
        exists (Z.to_pos (2 ^ 52)), (n + 1 - 1074). split; [reflexivity|]. split.
        { apply bounded_intro; [lia | simpl; lia | left; reflexivity]. }
        change (Z.pos (Z.to_pos (2 ^ 52))) with (2 ^ 52).
        rewrite <- !Z.pow_add_r by lia. f_equal. lia.
      * right. split; [|reflexivity]. rewrite Ek.
        rewrite <- Z.pow_add_r by lia. apply pow2_le. lia.
    + assert (Hk' : 2 ^ 52 <= k < 2 ^ 53) by lia.
      assert (Ekp : Z.pos (Z.to_pos k) = k) by lia.
      destruct (Z.leb_spec (n - 1074) 971) as [Hf | Hi].
      * left. split.
        { pose proof (pow2_le (53 + n) 2098 ltac:(lia)) as Hle.
          rewrite Z.pow_add_r in Hle by lia. nia. }
        exists (Z.to_pos k), (n - 1074). split; [reflexivity|]. split.
        { apply bounded_intro; [lia | | left].
          - change (Z.pos (digits2_pos (Z.to_pos k))) with (Zdigits2 (Z.pos (Z.to_pos k))).
            rewrite Ekp. rewrite (Zdigits2_unique k 53); lia.
          - change (Z.pos (digits2_pos (Z.to_pos k))) with (Zdigits2 (Z.pos (Z.to_pos k))).
            rewrite Ekp. apply Zdigits2_unique; lia. }
        rewrite Ekp. f_equal. f_equal. lia.
      * right. split; [|reflexivity].
        pose proof (pow2_le 2098 (52 + n) ltac:(lia)) as Hle.
        rewrite Z.pow_add_r in Hle by lia. nia.
Qed.

Lemma canonical_compare m1 e1 m2 e2 :
  bounded Float.prec Float.emax m1 e1 = true ->
  bounded Float.prec Float.emax m2 e2 = true ->
  match e1 ?= e2 with
  | Lt => Lt
  | Gt => Gt
  | Eq => Pos.compare_cont Eq m1 m2
  end = (Z.pos m1 * 2 ^ (e1 + 1074) ?= Z.pos m2 * 2 ^ (e2 + 1074)).
Proof.
  intros H1 H2.
  apply bounded_inv in H1 as (He1 & Hd1 & Hc1).
  apply bounded_inv in H2 as (He2 & Hd2 & Hc2).
  pose proof (digits2_pos_bounds m1) as B1.
  pose proof (digits2_pos_bounds m2) as B2.
  assert (L : forall ma ea mb eb,
             -1074 <= ea < eb -> Z.pos ma < 2 ^ 53 -> 2 ^ 52 <= Z.pos mb ->
             Z.pos ma * 2 ^ (ea + 1074) < Z.pos mb * 2 ^ (eb + 1074)).
  { intros ma ea mb eb He Ha Hb.
    pose proof (pow2_pos (ea + 1074) ltac:(lia)) as Pa.
    pose proof (pow2_le (53 + (ea + 1074)) (52 + (eb + 1074)) ltac:(lia)) as Hle.
    rewrite (Z.pow_add_r 2 53), (Z.pow_add_r 2 52) in Hle by lia.
    pose proof (pow2_pos (eb + 1074) ltac:(lia)) as Pb.
    apply Z.lt_le_trans with (2 ^ 53 * 2 ^ (ea + 1074)).
    - apply Z.mul_lt_mono_pos_r; assumption.
    - apply Z.le_trans with (2 ^ 52 * 2 ^ (eb + 1074)); [assumption|].
      apply Z.mul_le_mono_nonneg_r; lia. }
  assert (U : forall m, Z.pos (digits2_pos m) <= 53 -> Z.pos m < 2 ^ 53).
  { intros m Hd. pose proof (digits2_pos_bounds m) as [_ B].
    pose proof (pow2_le (Z.pos (digits2_pos m)) 53 ltac:(lia)). lia. }
  assert (D : forall m, Z.pos (digits2_pos m) = 53 -> 2 ^ 52 <= Z.pos m).
  { intros m Hd. pose proof (digits2_pos_bounds m) as [B _]. rewrite Hd in B. exact B. }
  destruct (Z.compare_spec e1 e2) as [E | Hlt | Hgt].
  - subst e2. rewrite <- Zmult_compare_compat_r by (apply Z.lt_gt, pow2_pos; lia).
    reflexivity.
  - symmetry. apply Z.compare_lt_iff. apply L; [lia | auto | apply D; lia].
  - symmetry. apply Z.compare_gt_iff. apply L; [lia | auto | apply D; lia].
Qed.

Lemma leb_scaled x y :
  Float.valid x = true -> Float.valid y = true ->
  Float.is_finite x = true -> Float.is_finite y = true ->
  Float.leb x y = (scaled x <=? scaled y).
Proof.
  intros Vx Vy Fx Fy.
  destruct x as [sx | sx | | sx mx ex], y as [sy | sy | | sy my ey];
    try discriminate; unfold Float.leb, SFleb, SFcompare, scaled.
  - reflexivity.
  - pose proof (pow2_pos (ey + 1074)). apply bounded_inv in Vy.
    destruct sy; symmetry; [apply Z.leb_gt | apply Z.leb_le]; nia.
  - pose proof (pow2_pos (ex + 1074)). apply bounded_inv in Vx.
    destruct sx; symmetry; [apply Z.leb_le | apply Z.leb_gt]; nia.
  - pose proof (canonical_compare mx ex my ey Vx Vy) as C.
    apply bounded_inv in Vx, Vy.
    pose proof (pow2_pos (ex + 1074) ltac:(lia)).
    pose proof (pow2_pos (ey + 1074) ltac:(lia)).
    destruct sx, sy.
    + rewrite !Z.mul_opp_l.
      set (X := Z.pos mx * 2 ^ (ex + 1074)) in *.
      set (Y := Z.pos my * 2 ^ (ey + 1074)) in *.
      destruct (ex ?= ey); [rewrite C|..];
        destruct (Z.compare_spec X Y); try discriminate; simpl;
        symmetry; first [apply Z.leb_le | apply Z.leb_gt]; lia.
    + symmetry. apply Z.leb_le. nia.
    + symmetry. apply Z.leb_gt. nia.
    + rewrite C. unfold Z.leb. reflexivity.
Qed.

(** ** Rounded operations *)

Lemma binary_normalize_spec M e :
  -1074 <= e ->
  Float.of_Z_scaled M e = round_signed (M * 2 ^ (e + 1074)).
Proof.
  intros He. unfold Float.of_Z_scaled, binary_normalize.
  pose proof (pow2_pos (e + 1074) ltac:(lia)) as HP.
  destruct M as [|p|p].
  - reflexivity.
  - rewrite binary_round_spec by assumption.
    destruct (Z.pos p * 2 ^ (e + 1074)) eqn:E; try lia. reflexivity.
  - rewrite binary_round_spec by assumption.
    destruct (Z.neg p * 2 ^ (e + 1074)) eqn:E; try lia.
    unfold round_signed. f_equal. lia.
Qed.

(** A canonical float is the rounding of its own value. *)
Lemma round_scaled_exact s m e :
  bounded Float.prec Float.emax m e = true ->
  round_scaled s (Z.pos m * 2 ^ (e + 1074)) = S754_finite s m e.
Proof.
  intros Hb. apply bounded_inv in Hb as (He & Hd & Hc).
  unfold round_scaled. rewrite Zdigits2_mul_pow2 by lia. simpl Zdigits2.
  pose proof (digits2_pos_bounds m) as B.
  destruct (Z.leb_spec (Z.pos (digits2_pos m) + (e + 1074)) 53) as [Hle | Hgt].
  - assert (e = -1074) by lia. subst e. change (2 ^ (-1074 + 1074)) with 1.
    rewrite Z.mul_1_r. reflexivity.
  - assert (Hd53 : Z.pos (digits2_pos m) = 53) by lia. rewrite Hd53 in *.
    replace (53 + (e + 1074) - 53) with (e + 1074) by lia.
    rewrite round_half_even_exact by (apply pow2_pos; lia).
    destruct (Z.eqb_spec (Z.pos m) (2 ^ 53)); [lia|].
    unfold finite_or_inf. replace (e + 1074 - 1074) with e by lia.
    destruct (Z.leb_spec e 971); [reflexivity | lia].
Qed.

Lemma round_signed_exact x :
  Float.valid x = true -> Float.is_finite x = true ->
  round_signed (scaled x) = match x with S754_zero _ => S754_zero false | _ => x end.
Proof.
  intros V F. destruct x as [s | s | | s m e]; try discriminate; [reflexivity|].
  simpl in V. pose proof V as V'. apply bounded_inv in V' as (He & _).
  pose proof (pow2_pos (e + 1074) ltac:(lia)) as HP.
  unfold scaled. destruct s.
  - destruct (- Z.pos m * 2 ^ (e + 1074)) eqn:E; try lia.
    unfold round_signed. rewrite <- E.
    replace (- (- Z.pos m * 2 ^ (e + 1074))) with (Z.pos m * 2 ^ (e + 1074)) by lia.
    apply round_scaled_exact; assumption.
  - destruct (Z.pos m * 2 ^ (e + 1074)) eqn:E; try lia.
    unfold round_signed. rewrite <- E. apply round_scaled_exact; assumption.
Qed.

Lemma sub_spec x y :
  Float.valid x = true -> Float.valid y = true ->
  Float.is_finite x = true -> Float.is_finite y = true ->
  same_value (Float.sub x y) (round_signed (scaled x - scaled y)).
Proof.
  intros Vx Vy Fx Fy.
  destruct x as [sx | sx | | sx mx ex], y as [sy | sy | | sy my ey]; try discriminate.
  - right. split; [|reflexivity]. destruct sx, sy; reflexivity.
  - left. change (Float.sub (S754_zero sx) (S754_finite sy my ey))
      with (S754_finite (negb sy) my ey).
    pose proof (round_signed_exact (S754_finite (negb sy) my ey) Vy eq_refl) as E.
    cbv iota in E. rewrite <- E at 1. f_equal.
    unfold scaled. destruct sy; simpl negb; cbv iota; ring.
  - left. change (Float.sub (S754_finite sx mx ex) (S754_zero sy))
      with (S754_finite sx mx ex).
    pose proof (round_signed_exact (S754_finite sx mx ex) Vx eq_refl) as E.
    cbv iota in E. rewrite <- E at 1. f_equal.
    unfold scaled. ring.
  - left. simpl in Vx, Vy.
    apply bounded_inv in Vx as (Hex & _), Vy as (Hey & _).
    unfold Float.sub, SFsub.
    pose proof (shl_align_spec mx ex (Z.min ex ey)) as [_ Ex].
    pose proof (shl_align_spec my ey (Z.min ex ey)) as [_ Ey].
    rewrite Ex, Ey.
    replace (Z.min ex (Z.min ex ey)) with (Z.min ex ey) by lia.
    replace (Z.min ey (Z.min ex ey)) with (Z.min ex ey) by lia.
    fold (Float.of_Z_scaled
            (cond_Zopp sx (Z.pos mx * 2 ^ (ex - Z.min ex ey)) -
             cond_Zopp sy (Z.pos my * 2 ^ (ey - Z.min ex ey))) (Z.min ex ey)).
    rewrite binary_normalize_spec by lia. f_equal.
    unfold scaled.
    replace (2 ^ (ex + 1074)) with (2 ^ (ex - Z.min ex ey) * 2 ^ (Z.min ex ey + 1074))
      by (rewrite <- Z.pow_add_r by lia; f_equal; lia).
    replace (2 ^ (ey + 1074)) with (2 ^ (ey - Z.min ex ey) * 2 ^ (Z.min ex ey + 1074))
      by (rewrite <- Z.pow_add_r by lia; f_equal; lia).
    destruct sx, sy; unfold cond_Zopp; ring.
Qed.

Lemma round_scaled_nonneg N :
  0 < N ->
  (exists m e, round_scaled false N = S754_finite false m e /\
               bounded Float.prec Float.emax m e = true) \/
  round_scaled false N = S754_infinity false.
Proof.
  intros HN. destruct (round_scaled_cases false N HN) as [(_ & m & e & E & B & _) | (_ & E)].
  - left. eauto.
  - right. assumption.
Qed.

(** Rounding is monotone on the non-negative values. *)
Lemma round_signed_mono N1 N2 :
  0 <= N1 <= N2 -> Float.leb (round_signed N1) (round_signed N2) = true.
Proof.
  intros H. destruct N1 as [|p1|p1]; try lia.
  - destruct N2 as [|p2|p2]; try lia; [reflexivity|].
    destruct (round_scaled_nonneg (Z.pos p2) ltac:(lia)) as [(m & e & E & _) | E];
      unfold round_signed; rewrite E; reflexivity.
  - destruct N2 as [|p2|p2]; try lia. unfold round_signed.
    pose proof (round_Z_mono (Z.pos p1) (Z.pos p2) ltac:(lia)) as Hm.
    destruct (round_scaled_cases false (Z.pos p1) ltac:(lia))
      as [(L1 & m1 & e1 & E1 & B1 & V1) | (L1 & E1)];
    destruct (round_scaled_cases false (Z.pos p2) ltac:(lia))
      as [(L2 & m2 & e2 & E2 & B2 & V2) | (L2 & E2)]; rewrite E1, E2.
    + rewrite leb_scaled by first [exact B1 | exact B2 | reflexivity].
      unfold scaled. apply Z.leb_le. lia.
    + reflexivity.
    + lia.
    + reflexivity.
Qed.

Lemma round_signed_nonneg N : 0 <= N -> nonneg (round_signed N) = true.
Proof.
  intros H. destruct N as [|p|p]; try lia; [reflexivity|].
  unfold round_signed.
  destruct (round_scaled_nonneg (Z.pos p) ltac:(lia)) as [(m & e & E & B) | E]; rewrite E.
  - simpl. exact B.
  - reflexivity.
Qed.

Lemma same_value_nonneg x y : same_value x y -> nonneg y = true -> nonneg x = true.
Proof.
  intros [-> | [Zx Zy]] H; [assumption|]. destruct x; try discriminate. reflexivity.
Qed.

Lemma leb_same_value x x' y y' :
  same_value x x' -> same_value y y' -> Float.leb x y = Float.leb x' y'.
Proof.
  intros [-> | [Zx Zx']] [-> | [Zy Zy']]; try reflexivity.
  - destruct y, y'; try discriminate. destruct x'; reflexivity.
  - destruct x, x'; try discriminate. destruct y'; reflexivity.
  - destruct x, x', y, y'; try discriminate. reflexivity.
Qed.

Lemma leb_zero_nonneg x : nonneg x = true -> Float.leb Float.zero x = true.
Proof.
  destruct x as [s | s | | s m e]; simpl; try discriminate; try reflexivity.
  - destruct s; [discriminate | reflexivity].
  - destruct s; [discriminate | reflexivity].
Qed.

Lemma leb_le_scaled x y :
  Float.valid x = true -> Float.valid y = true ->
  Float.is_finite x = true -> Float.is_finite y = true ->
  Float.leb x y = true -> scaled x <= scaled y.
Proof.
  intros Vx Vy Fx Fy H. rewrite leb_scaled in H by assumption. apply Z.leb_le. exact H.
Qed.

(** Subtraction of an earlier reading from a later one is non-negative. *)
Lemma sub_nonneg t t0 :
  Float.valid t = true -> Float.valid t0 = true ->
  Float.is_finite t = true -> Float.is_finite t0 = true ->
  Float.leb t0 t = true ->
  nonneg (Float.sub t t0) = true.
Proof.
  intros Vt V0 Ft F0 H.
  pose proof (leb_le_scaled t0 t V0 Vt F0 Ft H).
  eapply same_value_nonneg; [apply sub_spec; assumption|].
  apply round_signed_nonneg. lia.
Qed.

(** Subtraction is monotone in its first argument. *)
Lemma sub_mono t0 t1 t2 :
  Float.valid t0 = true -> Float.valid t1 = true -> Float.valid t2 = true ->
  Float.is_finite t0 = true -> Float.is_finite t1 = true -> Float.is_finite t2 = true ->
  Float.leb t0 t1 = true -> Float.leb t1 t2 = true ->
  Float.leb (Float.sub t1 t0) (Float.sub t2 t0) = true.
Proof.
  intros V0 V1 V2 F0 F1 F2 H01 H12.
  pose proof (leb_le_scaled t0 t1 V0 V1 F0 F1 H01).
  pose proof (leb_le_scaled t1 t2 V1 V2 F1 F2 H12).
  rewrite (leb_same_value _ _ _ _ (sub_spec t1 t0 V1 V0 F1 F0) (sub_spec t2 t0 V2 V0 F2 F0)).
  apply round_signed_mono. lia.
Qed.

(** ** Rounding to two decimals *)

Lemma of_hundredths_spec k : of_hundredths k = round_signed (hundredths_scaled k).
Proof.
  unfold of_hundredths, hundredths_scaled. rewrite binary_normalize_spec by lia.
  reflexivity.
Qed.

Lemma hundredths_scaled_pos k : 0 < k -> 0 < hundredths_scaled k.
Proof.
  intros Hk. unfold hundredths_scaled.
  apply Z.mul_pos_pos; [|apply pow2_pos; lia].
  assert (1 <= k * 2 ^ 64 / 100) by (apply Z.div_le_lower_bound; lia).
  destruct (k * 2 ^ 64 mod 100 =? 0); lia.
Qed.

Lemma hundredths_scaled_mono k1 k2 :
  k1 <= k2 -> hundredths_scaled k1 <= hundredths_scaled k2.
Proof.
  intros H. unfold hundredths_scaled.
  apply Z.mul_le_mono_nonneg_r; [pose proof (pow2_pos 1009); lia|].
  pose proof (Z.div_mod (k1 * 2 ^ 64) 100 ltac:(lia)) as E1.
  pose proof (Z.div_mod (k2 * 2 ^ 64) 100 ltac:(lia)) as E2.
  pose proof (Z.mod_pos_bound (k1 * 2 ^ 64) 100 ltac:(lia)).
  pose proof (Z.mod_pos_bound (k2 * 2 ^ 64) 100 ltac:(lia)).
  destruct (Z.eqb_spec (k1 * 2 ^ 64 mod 100) 0), (Z.eqb_spec (k2 * 2 ^ 64 mod 100) 0); lia.
Qed.

Lemma hundredths_scaled_lt k : k < 100 * 2 ^ 52 -> hundredths_scaled k < 2 ^ 1126.
Proof.
  intros H. unfold hundredths_scaled.
  change (2 ^ 1126) with (2 ^ 117 * 2 ^ 1009).
  apply Z.mul_lt_mono_pos_r; [apply pow2_pos; lia|].
  pose proof (Z.div_mod (k * 2 ^ 64) 100 ltac:(lia)) as E.
  pose proof (Z.mod_pos_bound (k * 2 ^ 64) 100 ltac:(lia)).
  destruct (k * 2 ^ 64 mod 100 =? 0); lia.
Qed.

Lemma round_half_even_nonneg a b : 0 <= a -> 0 < b -> 0 <= round_half_even a b.
Proof.
  intros Ha Hb. pose proof (round_half_even_bounds a b Ha Hb).
  pose proof (Z.div_pos a b Ha Hb). lia.
Qed.

Lemma round2_small s m e :
  -1074 <= e < 0 ->
  round2 (S754_finite s m e) =
  let k := round_half_even (100 * (Z.pos m * 2 ^ (e + 1074))) (2 ^ 1074) in
  if k =? 0 then S754_zero s
  else if s then SFopp (of_hundredths k) else of_hundredths k.
Proof.
  intros He. unfold round2.
  destruct (Z.leb_spec 0 e); [lia|].
  replace (100 * (Z.pos m * 2 ^ (e + 1074))) with (100 * Z.pos m * 2 ^ (e + 1074)) by ring.
  replace (2 ^ 1074) with (2 ^ (- e) * 2 ^ (e + 1074))
    by (rewrite <- Z.pow_add_r by lia; f_equal; lia).
  rewrite round_half_even_scale by (apply pow2_pos; lia).
  reflexivity.
Qed.

Lemma round2_large s m e : 0 <= e -> round2 (S754_finite s m e) = S754_finite s m e.
Proof. intros He. unfold round2. destruct (Z.leb_spec 0 e); [reflexivity | lia]. Qed.

Lemma round2_nonneg u : nonneg u = true -> nonneg (round2 u) = true.
Proof.
  intros H. destruct u as [s | s | | s m e]; try exact H.
  simpl in H. apply andb_true_iff in H as [Hs B]. destruct s; [discriminate|].
  pose proof B as B'. apply bounded_inv in B' as (He & _).
  destruct (Z_lt_le_dec e 0) as [Hneg | Hpos].
  - rewrite round2_small by lia. cbv zeta.
    destruct (_ =? 0) eqn:Ek; [reflexivity|].
    apply Z.eqb_neq in Ek. rewrite of_hundredths_spec.
    apply round_signed_nonneg.
    pose proof (hundredths_scaled_pos
      (round_half_even (100 * (Z.pos m * 2 ^ (e + 1074))) (2 ^ 1074))) as Hp.
    pose proof (round_half_even_nonneg (100 * (Z.pos m * 2 ^ (e + 1074))) (2 ^ 1074)
                  ltac:(pose proof (pow2_pos (e + 1074)); nia) ltac:(apply pow2_pos; lia)).
    lia.
  - rewrite round2_large by lia. simpl. exact B.
Qed.

Lemma leb_zero_l s x : nonneg x = true -> Float.leb (S754_zero s) x = true.
Proof.
  destruct x as [s' | s' | | s' m e]; try destruct s'; simpl;
    intros; try discriminate; reflexivity.
Qed.

Lemma leb_inf_r x : nonneg x = true -> Float.leb x (S754_infinity false) = true.
Proof.
  destruct x as [s' | s' | | s' m e]; try destruct s'; simpl;
    intros; try discriminate; reflexivity.
Qed.

Lemma round2_mono u1 u2 :
  nonneg u1 = true -> nonneg u2 = true -> Float.leb u1 u2 = true ->
  Float.leb (round2 u1) (round2 u2) = true.
Proof.
  intros N1 N2 H.
  pose proof (round2_nonneg u2 N2) as R2.
  pose proof (round2_nonneg u1 N1) as R1.
  destruct u1 as [s1 | s1 | | s1 m1 e1]; try discriminate.
  - apply leb_zero_l. assumption.
  - destruct s1; [discriminate|].
    destruct u2 as [s2 | s2 | | s2 m2 e2]; try discriminate.
    destruct s2; [discriminate | reflexivity].
  - simpl in N1. apply andb_true_iff in N1 as [Hs1 B1]. destruct s1; [discriminate|].
    destruct u2 as [s2 | s2 | | s2 m2 e2]; try discriminate.
    + destruct s2; [discriminate|]. apply leb_inf_r. assumption.
    + simpl in N2. apply andb_true_iff in N2 as [Hs2 B2]. destruct s2; [discriminate|].
      pose proof (leb_le_scaled (S754_finite false m1 e1) (S754_finite false m2 e2)
                    B1 B2 eq_refl eq_refl H) as Hsc. unfold scaled in Hsc.
      pose proof B1 as B1'. apply bounded_inv in B1' as (He1 & Hd1 & Hc1).
      pose proof B2 as B2'. apply bounded_inv in B2' as (He2 & Hd2 & Hc2).
      pose proof (digits2_pos_bounds m1) as D1.
      pose proof (digits2_pos_bounds m2) as D2.
      pose proof (pow2_pos (e1 + 1074) ltac:(lia)) as P1.
      pose proof (pow2_pos (e2 + 1074) ltac:(lia)) as P2.
      (* a float with a non-negative exponent is at least 2^52 *)
      assert (Big : forall m e, 0 <= e -> Z.pos (digits2_pos m) = 53 ->
                                2 ^ 1126 <= Z.pos m * 2 ^ (e + 1074)).
      { intros m e He Hd. pose proof (digits2_pos_bounds m) as [D _]. rewrite Hd in D.
        change (53 - 1) with 52 in D.
        pose proof (pow2_le 1074 (e + 1074) ltac:(lia)).
        change (2 ^ 1126) with (2 ^ 52 * 2 ^ 1074).
        pose proof (pow2_pos 1074 ltac:(lia)). nia. }
      (* a float with a negative exponent is below 2^52 *)
      assert (Small : forall m e, -1074 <= e < 0 -> Z.pos (digits2_pos m) <= 53 ->
                                  Z.pos m * 2 ^ (e + 1074) <= (2 ^ 53 - 1) * 2 ^ 1073).
      { intros m e He Hd. pose proof (digits2_pos_bounds m) as [_ D].
        pose proof (pow2_le (Z.pos (digits2_pos m)) 53 ltac:(lia)).
        pose proof (pow2_le (e + 1074) 1073 ltac:(lia)).
        pose proof (pow2_pos (e + 1074) ltac:(lia)).
        apply Z.mul_le_mono_nonneg; lia. }
      destruct (Z_lt_le_dec e1 0) as [Hn1 | Hp1].
      * rewrite round2_small by lia. cbv zeta.
        set (k1 := round_half_even (100 * (Z.pos m1 * 2 ^ (e1 + 1074))) (2 ^ 1074)) in *.
        assert (Hk1 : 0 <= k1)
          by (apply round_half_even_nonneg; [nia | apply pow2_pos; lia]).
        destruct (Z.eqb_spec k1 0) as [E1 | E1]; [apply leb_zero_l; assumption|].
        rewrite of_hundredths_spec.
        destruct (Z_lt_le_dec e2 0) as [Hn2 | Hp2].
        -- rewrite round2_small by lia. cbv zeta.
           set (k2 := round_half_even (100 * (Z.pos m2 * 2 ^ (e2 + 1074))) (2 ^ 1074)) in *.
           assert (Hk : k1 <= k2)
             by (apply round_half_even_mono; [apply pow2_pos|]; lia).
           destruct (Z.eqb_spec k2 0) as [E2 | E2]; [lia|].
           rewrite of_hundredths_spec. apply round_signed_mono.
           pose proof (hundredths_scaled_pos k1 ltac:(lia)).
           pose proof (hundredths_scaled_mono k1 k2 Hk). lia.
        -- rewrite round2_large by lia.
           pose proof (round_signed_exact (S754_finite false m2 e2) B2 eq_refl) as Ex.
           cbv iota in Ex. rewrite <- Ex. apply round_signed_mono. unfold scaled.
           pose proof (hundredths_scaled_pos k1 ltac:(lia)).
           assert (k1 < 100 * 2 ^ 52).
           { pose proof (round_half_even_bounds (100 * (Z.pos m1 * 2 ^ (e1 + 1074))) (2 ^ 1074)
                           ltac:(nia) ltac:(apply pow2_pos; lia)) as [_ Hub]. fold k1 in Hub.
             pose proof (Small m1 e1 ltac:(lia) Hd1) as Hs.
             assert (100 * (Z.pos m1 * 2 ^ (e1 + 1074)) / 2 ^ 1074 < 100 * 2 ^ 52 - 1); [|lia].
             apply Z.div_lt_upper_bound; [apply pow2_pos; lia|].
             change (2 ^ 1074) with (2 * 2 ^ 1073).
             pose proof (pow2_pos 1073 ltac:(lia)). nia. }
           pose proof (hundredths_scaled_lt k1 ltac:(lia)).
           pose proof (Big m2 e2 Hp2 ltac:(lia)). lia.
      * rewrite round2_large by lia.
        destruct (Z_lt_le_dec e2 0) as [Hn2 | Hp2].
        -- pose proof (Big m1 e1 Hp1 ltac:(lia)).
           pose proof (Small m2 e2 ltac:(lia) Hd2).
           change (2 ^ 1126) with (2 ^ 53 * 2 ^ 1073) in *.
           pose proof (pow2_pos 1073 ltac:(lia)). nia.
        -- rewrite round2_large by lia. exact H.
Qed.

(** ** Well-formedness of rounded results *)

Lemma shr_fexp_spec m e l :
  0 <= m ->
  let n := Z.max 0 (fexp Float.prec Float.emax (Zdigits2 m + e) - e) in
  shr_m (fst (shr_fexp Float.prec Float.emax m e l)) = m / 2 ^ n /\
  snd (shr_fexp Float.prec Float.emax m e l) = e + n.
Proof.
  intros Hm n. subst n. unfold shr_fexp, shr.
  assert (Hrec : shr_m (shr_record_of_loc m l) = m) by (destruct l as [|[]]; reflexivity).
  destruct (fexp Float.prec Float.emax (Zdigits2 m + e) - e) as [|p|p] eqn:E.
  - simpl. rewrite Z.div_1_r, Z.add_0_r. auto.
  - replace (Z.max 0 (Z.pos p)) with (Z.pos p) by lia. simpl fst. simpl snd.
    rewrite iter_pos_nat, iter_shr_m by (rewrite Hrec; assumption).
    rewrite Hrec, positive_nat_Z. auto.
  - replace (Z.max 0 (Z.neg p)) with 0 by lia. simpl. rewrite Z.div_1_r, Z.add_0_r. auto.
Qed.

Lemma round_nearest_even_bounds m l :
  m <= round_nearest_even m l <= m + 1.
Proof. destruct l as [|[]]; simpl; try destruct (Z.even m); lia. Qed.

(** Rounding returns a canonical float whenever the exponent it is given is
    not above the canonical one. *)
Lemma binary_round_aux_valid s mx ex lx :
  0 <= mx ->
  ex <= fexp Float.prec Float.emax (Zdigits2 mx + ex) ->
  Float.valid (binary_round_aux Float.prec Float.emax s mx ex lx) = true.
Proof.
  intros Hmx Hpre. unfold binary_round_aux.
  pose proof (shr_fexp_spec mx ex lx Hmx) as [S1 S2]. cbv zeta in S1, S2.
  destruct (shr_fexp Float.prec Float.emax mx ex lx) as [mrs' e']. simpl in S1, S2.
  rewrite fexp_eq in *.
  set (dm := Zdigits2 mx) in *.
  set (E := Z.max (dm + ex - 53) (-1074)) in *.
  replace (Z.max 0 (E - ex)) with (E - ex) in S1, S2 by lia.
  replace (ex + (E - ex)) with E in S2 by lia. subst e'.
  set (n := E - ex) in *. assert (Hn : 0 <= n) by (subst n; lia).
  pose proof (pow2_pos n Hn) as HPn.
  pose proof (round_nearest_even_bounds (shr_m mrs') (loc_of_shr_record mrs')) as Hk.
  set (k := round_nearest_even (shr_m mrs') (loc_of_shr_record mrs')) in *.
  rewrite S1 in Hk. clear S1.
  assert (Hm' : 0 <= mx / 2 ^ n) by (apply Z.div_pos; lia).
  (* the rounded mantissa fits on 53 bits, or is 2^53 *)
  assert (Hub : k <= 2 ^ 53).
  { assert (mx / 2 ^ n < 2 ^ 53); [|lia].
    apply Z.div_lt_upper_bound; [lia|].
    destruct (Z.eq_dec mx 0) as [-> | Hne]; [lia|].
    destruct (Zdigits2_bounds mx ltac:(lia)) as [Hd [_ Hhi]]. fold dm in Hd, Hhi.
    rewrite <- Z.pow_add_r by lia.
    pose proof (pow2_le dm (n + 53) ltac:(lia)). lia. }
  (* above the minimal exponent it has exactly 53 bits *)
  assert (Hlb : -1074 < E -> 2 ^ 52 <= k).
  { intros HE. assert (2 ^ 52 <= mx / 2 ^ n); [|lia].
    assert (Hmx0 : 0 < mx).
    { destruct (Z.eq_dec mx 0) as [E0 | ]; [|lia]. subst mx. subst dm. simpl in *. lia. }
    destruct (Zdigits2_bounds mx Hmx0) as [Hd [Hlo _]]. fold dm in Hd, Hlo.
    apply Z.div_le_lower_bound; [lia|].
    rewrite <- Z.pow_add_r by lia.
    pose proof (pow2_le (n + 52) (dm - 1) ltac:(lia)). lia. }
  pose proof (shr_fexp_spec k E loc_Exact ltac:(lia)) as [T1 T2]. cbv zeta in T1, T2.
  destruct (shr_fexp Float.prec Float.emax k E loc_Exact) as [mrs'' e'']. simpl in T1, T2.
  rewrite fexp_eq in *. rewrite T1. clear T1. subst e''.
  destruct (Z.eq_dec k (2 ^ 53)) as [Ek | Ek].
  - rewrite Ek. change (Zdigits2 (2 ^ 53)) with 54.
    replace (Z.max 0 (Z.max (54 + E - 53) (-1074) - E)) with 1 by lia.
    change (2 ^ 53 / 2 ^ 1) with (Z.pos (Z.to_pos (2 ^ 52))).
    destruct (Z.leb_spec (E + 1) (Float.emax - Float.prec)) as [Hle | Hgt]; [|reflexivity].
    change (Float.emax - Float.prec) with 971 in Hle.
    apply bounded_intro; [lia | simpl; lia | left; reflexivity].
  - destruct (Z.eq_dec k 0) as [E0 | E0].
    + rewrite E0. rewrite Z.div_0_l by (pose proof (pow2_pos (Z.max 0
        (Z.max (Zdigits2 0 + E - 53) (-1074) - E)) ltac:(lia)); lia). reflexivity.
    + assert (Hkpos : 0 < k) by lia.
      destruct (Zdigits2_bounds k Hkpos) as [Hdk [Hklo Hkhi]].
      assert (Hdk53 : Zdigits2 k <= 53).
      { assert (Zdigits2 k - 1 < 53) by (apply pow2_lt_inv; lia). lia. }
      assert (Hdk52 : -1074 < E -> Zdigits2 k = 53).
      { intros HE. specialize (Hlb HE).
        assert (52 < Zdigits2 k) by (apply pow2_lt_inv; lia). lia. }
      replace (Z.max 0 (Z.max (Zdigits2 k + E - 53) (-1074) - E)) with 0 by lia.
      rewrite Z.div_1_r, Z.add_0_r.
      destruct k as [|kp|kp]; try lia.
      destruct (Z.leb_spec E (Float.emax - Float.prec)) as [Hle | Hgt]; [|reflexivity].
      change (Float.emax - Float.prec) with 971 in Hle.
      simpl in Hdk53, Hdk52.
      apply bounded_intro; [lia | lia | ].
      destruct (Z.eq_dec E (-1074)); [right; assumption | left; apply Hdk52; lia].
Qed.

Lemma div_core_precondition mx ex my ey :
  let '(q, e', _) :=
    SFdiv_core_binary Float.prec Float.emax (Z.pos mx) ex (Z.pos my) ey in
  0 <= q /\ e' <= fexp Float.prec Float.emax (Zdigits2 q + e').
Proof.
  unfold SFdiv_core_binary. rewrite !fexp_eq. simpl Zdigits2.
  set (d1 := Z.pos (digits2_pos mx)). set (d2 := Z.pos (digits2_pos my)).
  set (e' := Z.min (Z.max (d1 + ex - (d2 + ey) - 53) (-1074)) (ex - ey)).
  set (s := ex - ey - e'). assert (Hs : 0 <= s) by (subst s e'; lia).
  set (m' := match s with Z.pos _ => Z.shiftl (Z.pos mx) s | 0 => Z.pos mx | Z.neg _ => 0 end).
  assert (Em : m' = Z.pos mx * 2 ^ s).
  { subst m'. clearbody s. destruct s as [|p|p]; try lia.
    apply Z.shiftl_mul_pow2. lia. }
  destruct (Z.div_eucl m' (Z.pos my)) as [q r] eqn:Ediv.
  assert (Eq : q = m' / Z.pos my) by (unfold Z.div; rewrite Ediv; reflexivity).
  pose proof (pow2_pos s Hs) as HPs.
  assert (Hq : 0 <= q) by (subst q; apply Z.div_pos; nia).
  split; [exact Hq|]. rewrite fexp_eq.
  destruct (Z_le_dec e' (-1074)) as [Hmin | Hbig]; [lia|].
  assert (Hs' : d2 - d1 + 53 <= s) by (subst s e'; lia).
  pose proof (digits2_pos_bounds mx) as [B1 _]. fold d1 in B1.
  pose proof (digits2_pos_bounds my) as [_ B2]. fold d2 in B2.
  assert (H52 : 2 ^ 52 <= q).
  { subst q. apply Z.div_le_lower_bound; [lia|]. rewrite Em.
    pose proof (pow2_le (d2 + 52) (d1 - 1 + s) ltac:(subst d1 d2; lia)) as Hle.
    rewrite !Z.pow_add_r in Hle by (subst d1 d2; lia).
    pose proof (pow2_pos 52 ltac:(lia)).
    apply Z.le_trans with (2 ^ d2 * 2 ^ 52); [nia|].
    apply Z.le_trans with (2 ^ (d1 - 1) * 2 ^ s); [lia|].
    apply Z.mul_le_mono_nonneg_r; lia. }
  destruct (Zdigits2_bounds q ltac:(lia)) as [Hd [_ Hhi]].
  assert (52 < Zdigits2 q) by (apply pow2_lt_inv; lia). lia.
Qed.

(** The quotient of two floats is always well formed. *)
Lemma div_valid x y : Float.valid (Float.div x y) = true.
Proof.
  destruct x as [sx | sx | | sx mx ex], y as [sy | sy | | sy my ey]; try reflexivity.
  unfold Float.div, SFdiv.
  pose proof (div_core_precondition mx ex my ey) as H.
  destruct (SFdiv_core_binary Float.prec Float.emax (Z.pos mx) ex (Z.pos my) ey)
    as [[q e'] l].
  destruct H as [Hq Hpre]. apply binary_round_aux_valid; assumption.
Qed.

(** Two canonical floats with the same value are the same float. *)
Lemma scaled_inj sx mx ex sy my ey :
  bounded Float.prec Float.emax mx ex = true ->
  bounded Float.prec Float.emax my ey = true ->
  scaled (S754_finite sx mx ex) = scaled (S754_finite sy my ey) ->
  S754_finite sx mx ex = S754_finite sy my ey.
Proof.
  intros Bx By H. pose proof (canonical_compare mx ex my ey Bx By) as C.
  pose proof Bx as Bx'. pose proof By as By'.
  apply bounded_inv in Bx' as (Hex & _), By' as (Hey & _).
  pose proof (pow2_pos (ex + 1074) ltac:(lia)).
  pose proof (pow2_pos (ey + 1074) ltac:(lia)).
  unfold scaled in H.
  assert (Hs : sx = sy) by (destruct sx, sy; try reflexivity; nia). subst sy.
  assert (Hv : Z.pos mx * 2 ^ (ex + 1074) = Z.pos my * 2 ^ (ey + 1074))
    by (destruct sx; lia).
  rewrite Hv, Z.compare_refl in C.
  destruct (Z.compare_spec ex ey) as [Ee | |]; try discriminate.
  subst ey. f_equal. apply Pos.compare_eq. exact C.
Qed.

(** Every list length converts to a positive finite float. *)
Lemma of_Z_length n :
  0 < n <= PY_SSIZE_T_MAX ->
  exists m e, Float.of_Z_scaled n 0 = S754_finite false m e.
Proof.
  intros Hn. unfold PY_SSIZE_T_MAX in Hn.
  rewrite binary_normalize_spec by lia. change (0 + 1074) with 1074.
  pose proof (pow2_pos 1074 ltac:(lia)) as HP.
  assert (HN : 0 < n * 2 ^ 1074) by nia.
  destruct (n * 2 ^ 1074) as [|p|p] eqn:EN; try lia.
  unfold round_signed. rewrite <- EN.
  destruct (round_scaled_cases false (n * 2 ^ 1074) ltac:(lia))
    as [(_ & m & e & E & _) | (Hbig & _)]; [eauto|].
  exfalso.
  pose proof (round_Z_bounds (n * 2 ^ 1074) ltac:(lia)) as [_ Hub].
  rewrite Zdigits2_mul_pow2 in Hub by lia.
  destruct (Zdigits2_bounds n ltac:(lia)) as [Hd [Hlo _]].
  assert (Zdigits2 n - 1 < 63) by (apply pow2_lt_inv; lia).
  pose proof (pow2_lt (Zdigits2 n + 1074) 2098 ltac:(lia)). lia.
Qed.
(** * The handlers *)

(** The scenarios of the specification: closes 10, 20, 30 and a single
    close 5.  In the first one the final candle, whose close is returned, is
    not the one with the largest timestamp. *)
Example compute_sample_request (py : summation) :
  compute py sample_request =
  ([OpLen; OpSubscript; OpSum; OpLen; OpTrueDiv],
   Return {| count := 3; last_close := f30; average_close := f20 |}).
Proof. destruct py; vm_compute; reflexivity. Qed.

Example compute_single_candle (py : summation) :
  result (compute py {| candles := [bar 1 f5] |}) =
  Return {| count := 1; last_close := f5; average_close := f5 |}.
Proof. destruct py; vm_compute; reflexivity. Qed.

(** [round(0.125, 2)] is [0.12], [round(-0.001, 2)] is [-0.0], and
    [round(1699999990.0 - 1700000000.0, 2)] is [-10.0]. *)
Example round2_tie : round2 f0_125 = f0_12.
Proof. vm_compute. reflexivity. Qed.

Example round2_small_negative :
  round2 (Float.of_Z_scaled (-1) (-10)) = S754_zero true.
Proof. vm_compute. reflexivity. Qed.

Example round2_clock_difference :
  round2 (Float.sub t_back t_boot) = S754_finite true 5629499534213120 (-49).
Proof. vm_compute. reflexivity. Qed.

(** The sum of two closes at the largest finite float overflows, and so
    does their mean. *)
Example compute_overflow (py : summation) :
  result (compute py {| candles := [bar 1 Float.max_float; bar 2 Float.max_float] |}) =
  Return {| count := 2; last_close := Float.max_float;
            average_close := S754_infinity false |}.
Proof. destruct py; vm_compute; reflexivity. Qed.

(** The two summations differ on ten closes of 0.1: added one after the
    other they give 0.9999999999999999, the compensated sum is 1.0. *)
Example float_sum_ten_tenths :
  float_sum Forward (map close (candles ten_tenths_request)) =
    S754_finite false 9007199254740991 (-53) /\
  float_sum Compensated (map close (candles ten_tenths_request)) = f1.
Proof. split; vm_compute; reflexivity. Qed.

(** Adding 0.1 to 0.2 is rounded, so the sum of two closes of 0.1 extended
    by their mean is not three times the mean; the sum of 1.0, 2.0, 2.0
    extended by their rounded mean is exactly four times that mean. *)
Example extended_sum_exact_tenths (py : summation) :
  extended_sum_exact py (map close (candles tenths_request)) = false.
Proof. destruct py; vm_compute; reflexivity. Qed.

Example extended_sum_exact_thirds (py : summation) :
  extended_sum_exact py (map close (candles thirds_request)) = true.
Proof. destruct py; vm_compute; reflexivity. Qed.

Lemma len_run {A} (xs : list A) : len xs = ([OpLen], Return (Z.of_nat (length xs))).
Proof. reflexivity. Qed.

Lemma subscript_last {A} (xs : list A) (x : A) :
  last xs = Some x -> subscript xs (-1) = ([OpSubscript], Return x).
Proof.
  intros H. rewrite last_lookup in H.
  assert (Hlen : (0 < length xs)%nat).
  { destruct xs; [discriminate | simpl; lia]. }
  unfold subscript. change (-1 <? 0) with true. cbv iota.
  destruct (Z.ltb_spec (-1 + Z.of_nat (length xs)) 0); [lia|].
  destruct (Z.leb_spec (Z.of_nat (length xs)) (-1 + Z.of_nat (length xs))); [lia|].
  replace (Z.to_nat (-1 + Z.of_nat (length xs))) with (Nat.pred (length xs)) by lia.
  simpl orb. cbv iota. rewrite H. reflexivity.
Qed.

Lemma sum_from_float (a : float) (xs : list float) :
  sum_from (PyFloat a) xs = ret (PyFloat (fold_left Float.add xs a)).
Proof.
  revert a. induction xs as [|x xs IH]; intros a; [reflexivity|].
  simpl. rewrite IH. reflexivity.
Qed.

(** The compensated loop computes Neumaier's summation. *)
Lemma sum_compensated_fold (f c : float) (xs : list float) :
  sum_compensated f c xs = compensated_total (fold_left compensate xs (f, c)).
Proof.
  revert f c. induction xs as [|x xs IH]; intros f c.
  - unfold compensated_total. simpl. destruct c; reflexivity.
  - cbn [sum_compensated fold_left]. rewrite IH. reflexivity.
Qed.

Lemma sum_run (py : summation) (x : float) (xs : list float) :
  sum py (x :: xs) = ([OpSum], Return (PyFloat (float_sum py (x :: xs)))).
Proof.
  unfold sum. destruct py.
  - simpl sum_from.
    change (add_float (PyInt 0) x) with (ret (PyFloat (Float.add Float.zero x))).
    change (Py.bind (ret (PyFloat (Float.add Float.zero x))) (fun acc' => sum_from acc' xs))
      with (let '(t', r) := sum_from (PyFloat (Float.add Float.zero x)) xs in
            (@nil op ++ t', r)).
    rewrite sum_from_float. reflexivity.
  - change (add_float (PyInt 0) x) with (ret (PyFloat (Float.add Float.zero x))).
    unfold float_sum, sum_neumaier. rewrite <- sum_compensated_fold. reflexivity.
Qed.

Lemma truediv_run (s : float) (n : Z) :
  0 < n <= PY_SSIZE_T_MAX ->
  truediv (PyFloat s) n = ([OpTrueDiv], Return (Float.div s (Float.of_Z_scaled n 0))).
Proof.
  intros Hn. destruct (of_Z_length n Hn) as (m & e & E).
  unfold truediv, int_to_float. rewrite E. reflexivity.
Qed.

Lemma average_close_of_run (py : summation) (closes : list float) :
  closes <> [] ->
  Z.of_nat (length closes) <= PY_SSIZE_T_MAX ->
  average_close_of py closes =
  ([OpSum; OpLen; OpTrueDiv], Return (mean_of py closes)).
Proof.
  intros Hne Hlen. destruct closes as [|x xs]; [congruence|].
  unfold average_close_of. rewrite sum_run, len_run.
  unfold Py.bind at 2. unfold Py.bind at 1.
  rewrite truediv_run by (simpl length in *; lia).
  reflexivity.
Qed.

(** What [compute] does on a non-empty request. *)
Lemma compute_run (py : summation) (req : ComputeRequest) (x : float) :
  last (map close (candles req)) = Some x ->
  Z.of_nat (length (candles req)) <= PY_SSIZE_T_MAX ->
  compute py req =
  ([OpLen; OpSubscript; OpSum; OpLen; OpTrueDiv],
   Return {| count := Z.of_nat (length (candles req));
             last_close := x;
             average_close := mean_of py (map close (candles req)) |}).
Proof.
  intros Hlast Hlen. unfold compute.
  rewrite len_run, (subscript_last _ x Hlast).
  rewrite average_close_of_run.
  - rewrite length_map. reflexivity.
  - intros E. rewrite E in Hlast. discriminate.
  - rewrite length_map. exact Hlen.
Qed.

Lemma last_map_close (cs : list Candle) :
  cs <> [] -> exists c, last cs = Some c /\ last (map close cs) = Some (close c).
Proof.
  intros Hne. destruct cs as [|c0 cs] using rev_ind; [congruence|].
  exists c0. rewrite map_app. simpl map. rewrite !last_snoc. auto.
Qed.

Lemma compute_empty (py : summation) :
  compute py {| candles := [] |} = ([OpLen; OpSubscript], Raise IndexError).
Proof. reflexivity. Qed.


Lemma map_close_agree (cs1 cs2 : list Candle) :
  Forall2 (fun a b => close a = close b) cs1 cs2 -> map close cs1 = map close cs2.
Proof.
  induction 1 as [|a b l1 l2 Hab _ IH]; [reflexivity|].
  simpl. rewrite Hab, IH. reflexivity.
Qed.

(** ** The application *)

Lemma serve_globals (py : summation) (g : Globals) (w : World) (rq : request) :
  fst (serve py g w rq) = g.
Proof. destruct rq; reflexivity. Qed.

Lemma serve_all_lookup (py : summation) (g : Globals)
      (calls : list (World * request)) (i : nat) (w : World) (rq : request) :
  calls !! i = Some (w, rq) ->
  serve_all py g calls !! i = Some (snd (serve py g w rq)).
Proof.
  revert i. induction calls as [|[w' rq'] calls IH]; intros i H; [discriminate|].
  simpl serve_all. pose proof (serve_globals py g w' rq') as Hg.
  destruct (serve py g w' rq') as [g' r] eqn:Es. simpl in Hg. subst g'.
  destruct i as [|i].
  - simpl in H. injection H as <- <-. rewrite Es. reflexivity.
  - simpl in *. apply IH. exact H.
Qed.

Lemma meta_version (g : Globals) (w : World) :
  meta g w !! "version" = Some (VStr (VERSION g)).
Proof.
  unfold meta. rewrite !lookup_insert_ne by done. apply lookup_insert_eq.
Qed.

Lemma meta_uptime (g : Globals) (w : World) :
  meta g w !! "uptime_seconds" = Some (VFloat (uptime_seconds g w)).
Proof.
  unfold meta. rewrite !lookup_insert_ne by done. apply lookup_insert_eq.
Qed.

(** ** Wall-clock readings *)

Lemma nondecreasing_scaled (ts : list float) :
  forallb (fun t => Float.is_finite t && Float.valid t) ts = true ->
  nondecreasing ts = true ->
  forall (a b : nat) (ta tb : float),
    (a <= b)%nat -> ts !! a = Some ta -> ts !! b = Some tb ->
    scaled ta <= scaled tb.
Proof.
  induction ts as [|t1 rest IH]; intros Hok Hnd a b ta tb Hab Ha Hb; [discriminate|].
  simpl in Hok. apply andb_true_iff in Hok as [Hok1 Hok].
  apply andb_true_iff in Hok1 as [F1 V1].
  assert (Hrest : nondecreasing rest = true).
  { simpl in Hnd. destruct rest; [reflexivity|].
    apply andb_true_iff in Hnd as [_ Hnd]. exact Hnd. }
  destruct a as [|a], b as [|b]; try lia.
  - simpl in Ha, Hb. injection Ha as <-. injection Hb as <-. lia.
  - simpl in Ha. injection Ha as <-. simpl in Hb.
    destruct rest as [|t2 rest']; [discriminate|].
    simpl in Hnd. apply andb_true_iff in Hnd as [H12 _].
    pose proof Hok as Hok'. simpl in Hok'. apply andb_true_iff in Hok' as [Hok2 _].
    apply andb_true_iff in Hok2 as [F2 V2].
    pose proof (leb_le_scaled t1 t2 V1 V2 F1 F2 H12).
    pose proof (IH Hok Hrest 0%nat b t2 tb ltac:(lia) eq_refl Hb). lia.
  - simpl in Ha, Hb. apply (IH Hok Hrest a b); [lia | assumption | assumption].
Qed.

Lemma forallb_lookup {A} (p : A -> bool) (xs : list A) (i : nat) (x : A) :
  forallb p xs = true -> xs !! i = Some x -> p x = true.
Proof.
  revert i. induction xs as [|y xs IH]; intros i H Hi; [discriminate|].
  simpl in H. apply andb_true_iff in H as [Hy H].
  destruct i as [|i]; simpl in Hi.
  - injection Hi as <-. exact Hy.
  - apply (IH i); assumption.
Qed.

(** Under a monotone clock, the reading of a call is a finite float not
    before the start time, and not after the reading of a later call. *)
Lemma clock_monotone_readings (w0 : World) (calls : list (World * request))
      (i j : nat) (wi wj : World) (ri rj : request) :
  clock_monotone w0 calls = true ->
  (i <= j)%nat ->
  calls !! i = Some (wi, ri) -> calls !! j = Some (wj, rj) ->
  Float.is_finite (time_time w0) = true /\ Float.valid (time_time w0) = true /\
  Float.is_finite (time_time wi) = true /\ Float.valid (time_time wi) = true /\
  Float.is_finite (time_time wj) = true /\ Float.valid (time_time wj) = true /\
  Float.leb (time_time w0) (time_time wi) = true /\
  Float.leb (time_time wi) (time_time wj) = true.
Proof.
  intros Hc Hij Hi Hj. unfold clock_monotone in Hc. cbv zeta in Hc.
  apply andb_true_iff in Hc as [Hok Hnd].
  set (ts := time_time w0 :: map (fun c => time_time (fst c)) calls) in *.
  assert (L0 : ts !! 0%nat = Some (time_time w0)) by reflexivity.
  assert (Li : ts !! S i = Some (time_time wi)).
  { subst ts. simpl. rewrite list_lookup_fmap, Hi. reflexivity. }
  assert (Lj : ts !! S j = Some (time_time wj)).
  { subst ts. simpl. rewrite list_lookup_fmap, Hj. reflexivity. }
  pose proof (forallb_lookup _ ts _ _ Hok L0) as H0.
  pose proof (forallb_lookup _ ts _ _ Hok Li) as H1.
  pose proof (forallb_lookup _ ts _ _ Hok Lj) as H2.
  cbv beta in H0, H1, H2.
  apply andb_true_iff in H0 as [F0 V0], H1 as [F1 V1], H2 as [F2 V2].
  pose proof (nondecreasing_scaled ts Hok Hnd 0%nat (S i) _ _ ltac:(lia) L0 Li).
  pose proof (nondecreasing_scaled ts Hok Hnd (S i) (S j) _ _ ltac:(lia) Li Lj).
  repeat split; try assumption.
  - rewrite leb_scaled by assumption. apply Z.leb_le. assumption.
  - rewrite leb_scaled by assumption. apply Z.leb_le. assumption.
Qed.

Lemma uptime_nonneg (w0 w : World) :
  Float.is_finite (time_time w0) = true -> Float.valid (time_time w0) = true ->
  Float.is_finite (time_time w) = true -> Float.valid (time_time w) = true ->
  Float.leb (time_time w0) (time_time w) = true ->
  nonneg (uptime_seconds (load w0) w) = true.
Proof.
  intros F0 V0 F V H. unfold uptime_seconds. simpl START_TIME.
  apply round2_nonneg, sub_nonneg; assumption.
Qed.

(** * Sums, quotients and clock differences *)

(** ** Sums *)

Lemma add_nan_r (x : float) : Float.add x S754_nan = S754_nan.
Proof. destruct x; reflexivity. Qed.

Lemma fold_add_from_nan (xs : list float) :
  fold_left Float.add xs S754_nan = S754_nan.
Proof. induction xs as [|x xs IH]; [reflexivity | exact IH]. Qed.

Lemma fold_add_with_nan (xs : list float) (a : float) :
  In S754_nan xs -> fold_left Float.add xs a = S754_nan.
Proof.
  revert a. induction xs as [|x xs IH]; intros a H; [destruct H|].
  destruct H as [-> | H]; simpl.
  - rewrite add_nan_r. apply fold_add_from_nan.
  - apply IH. exact H.
Qed.

Lemma nonneg_intro (x : float) :
  Float.valid x = true -> Float.leb Float.zero x = true -> nonneg x = true.
Proof.
  destruct x as [s | s | | s m e]; try destruct s; simpl; intros V L;
    try discriminate; try reflexivity.
  exact V.
Qed.

(** The sum of two non-negative floats is non-negative. *)
Lemma add_nonneg (x y : float) :
  nonneg x = true -> nonneg y = true -> nonneg (Float.add x y) = true.
Proof.
  intros Nx Ny.
  destruct x as [sx | sx | | sx mx ex], y as [sy | sy | | sy my ey];
    try discriminate; try (destruct sx; try discriminate);
    try (destruct sy; try discriminate); try reflexivity; try assumption.
  simpl in Nx, Ny.
  pose proof Nx as Bx. pose proof Ny as By.
  apply bounded_inv in Bx as (Hex & _), By as (Hey & _).
  unfold Float.add, SFadd.
  pose proof (shl_align_spec mx ex (Z.min ex ey)) as [_ Ex].
  pose proof (shl_align_spec my ey (Z.min ex ey)) as [_ Ey].
  fold (Float.of_Z_scaled
          (cond_Zopp false (Z.pos (fst (shl_align mx ex (Z.min ex ey)))) +
           cond_Zopp false (Z.pos (fst (shl_align my ey (Z.min ex ey)))))
          (Z.min ex ey)).
  rewrite binary_normalize_spec by lia.
  apply round_signed_nonneg. unfold cond_Zopp.
  pose proof (pow2_pos (Z.min ex ey + 1074) ltac:(lia)). nia.
Qed.

Lemma fold_add_nonneg (xs : list float) (a : float) :
  nonneg a = true -> Forall (fun x => nonneg x = true) xs ->
  nonneg (fold_left Float.add xs a) = true.
Proof.
  revert a. induction xs as [|x xs IH]; intros a Ha Hxs; [exact Ha|].
  inversion Hxs as [|? ? Hx Hrest]; subst. simpl.
  apply IH; [apply add_nonneg|]; assumption.
Qed.

Lemma fold_add_zeros (xs : list float) :
  Forall (fun x => Float.is_zero x = true) xs ->
  fold_left Float.add xs Float.zero = Float.zero.
Proof.
  induction 1 as [|x xs Hx _ IH]; [reflexivity|].
  simpl. destruct x as [s | | |]; try discriminate.
  destruct s; exact IH.
Qed.

(** ** Quotients *)

(** Rounding a non-negative mantissa gives a zero, a finite float or an
    infinity of the requested sign. *)
Lemma binary_round_aux_shape (s : bool) (mx ex : Z) (lx : location) :
  0 <= mx ->
  binary_round_aux Float.prec Float.emax s mx ex lx <> S754_nan /\
  SFabs (binary_round_aux Float.prec Float.emax s mx ex lx) =
  SFabs (binary_round_aux Float.prec Float.emax false mx ex lx) /\
  (s = false ->
   Float.leb Float.zero (binary_round_aux Float.prec Float.emax s mx ex lx) = true).
Proof.
  intros Hmx. unfold binary_round_aux.
  pose proof (shr_fexp_spec mx ex lx Hmx) as [S1 _]. cbv zeta in S1.
  destruct (shr_fexp Float.prec Float.emax mx ex lx) as [mrs' e']. simpl in S1.
  pose proof (round_nearest_even_bounds (shr_m mrs') (loc_of_shr_record mrs')) as Hk.
  set (k := round_nearest_even (shr_m mrs') (loc_of_shr_record mrs')) in *.
  assert (Hk0 : 0 <= k).
  { rewrite S1 in Hk.
    pose proof (Z.div_pos mx (2 ^ Z.max 0 (fexp Float.prec Float.emax (Zdigits2 mx + ex) - ex))
                  Hmx ltac:(apply pow2_pos; lia)). lia. }
  pose proof (shr_fexp_spec k e' loc_Exact Hk0) as [T1 _]. cbv zeta in T1.
  destruct (shr_fexp Float.prec Float.emax k e' loc_Exact) as [mrs'' e'']. simpl in T1.
  pose proof (Z.div_pos k (2 ^ Z.max 0 (fexp Float.prec Float.emax (Zdigits2 k + e') - e'))
                Hk0 ltac:(apply pow2_pos; lia)) as Hm''.
  rewrite <- T1 in Hm''.
  destruct (shr_m mrs'') as [|p|p]; try lia.
  - split; [discriminate|]. split; [reflexivity|]. intros ->. reflexivity.
  - destruct (e'' <=? Float.emax - Float.prec).
    + split; [discriminate|]. split; [reflexivity|]. intros ->. reflexivity.
    + split; [discriminate|]. split; [reflexivity|]. intros ->. reflexivity.
Qed.

(** The quotient of a non-negative float by a positive one is
    non-negative. *)
Lemma div_nonneg (x : float) (m : positive) (e : Z) :
  nonneg x = true -> nonneg (Float.div x (S754_finite false m e)) = true.
Proof.
  intros Nx. apply nonneg_intro; [apply div_valid|].
  destruct x as [sx | sx | | sx mx ex]; try discriminate.
  - reflexivity.
  - destruct sx; [discriminate | reflexivity].
  - simpl in Nx. destruct sx; [discriminate|].
    unfold Float.div, SFdiv.
    pose proof (div_core_precondition mx ex m e) as H.
    destruct (SFdiv_core_binary Float.prec Float.emax (Z.pos mx) ex (Z.pos m) e)
      as [[q e'] l].
    destruct H as [Hq _].
    apply (binary_round_aux_shape (xorb false false) q e' l Hq). reflexivity.
Qed.

(** Rounding an exact mantissa that is not shorter than the canonical one:
    the float nearest to its value. *)
Lemma binary_round_aux_exact_spec (s : bool) (q e : Z) :
  0 < q -> -1074 <= e ->
  e <= fexp Float.prec Float.emax (Zdigits2 q + e) ->
  binary_round_aux Float.prec Float.emax s q e loc_Exact =
  round_scaled s (q * 2 ^ (e + 1074)).
Proof.
  intros Hq He Hpre. destruct q as [|p|p]; try lia.
  rewrite <- binary_round_spec by assumption.
  unfold binary_round, shl_align. simpl Zdigits2 in Hpre.
  destruct (fexp Float.prec Float.emax (Z.pos (digits2_pos p) + e) - e) eqn:E;
    try lia; reflexivity.
Qed.

(** Dividing a well-formed finite float by 1.0 gives it back. *)
Lemma div_one (x : float) :
  Float.valid x = true -> Float.is_finite x = true -> Float.div x f1 = x.
Proof.
  intros V F. destruct x as [s | s | | s mx ex]; try discriminate.
  - destruct s; reflexivity.
  - simpl in V. pose proof V as B. apply bounded_inv in B as (Hex & Hd & _).
    unfold Float.div, SFdiv, f1.
    pose proof (div_core_precondition mx ex 4503599627370496 (-52)) as H.
    revert H. unfold SFdiv_core_binary. rewrite !fexp_eq.
    change (Zdigits2 (Z.pos 4503599627370496)) with 53. simpl Zdigits2.
    set (d1 := Z.pos (digits2_pos mx)) in *.
    set (e' := Z.min (Z.max (d1 + ex - (53 + -52) - 53) (-1074)) (ex - -52)).
    set (sh := ex - -52 - e').
    assert (Hsh : 52 <= sh) by (subst sh e'; lia).
    assert (He' : -1074 <= e') by (subst e'; lia).
    set (m' := match sh with
               | 0 => Z.pos mx
               | Z.pos _ => Z.shiftl (Z.pos mx) sh
               | Z.neg _ => 0
               end).
    assert (Em : m' = Z.pos mx * 2 ^ (sh - 52) * 2 ^ 52).
    { subst m'. clearbody sh. destruct sh as [|p|p]; try lia.
      rewrite Z.shiftl_mul_pow2 by lia.
      rewrite <- Z.mul_assoc, <- Z.pow_add_r by lia. f_equal. f_equal. lia. }
    destruct (Z.div_eucl m' (Z.pos 4503599627370496)) as [q r] eqn:Ediv.
    assert (Eq : q = m' / 2 ^ 52) by (unfold Z.div; change (2 ^ 52) with (Z.pos 4503599627370496); rewrite Ediv; reflexivity).
    assert (Er : r = m' mod 2 ^ 52) by (unfold Z.modulo; change (2 ^ 52) with (Z.pos 4503599627370496); rewrite Ediv; reflexivity).
    rewrite Em, Z.div_mul in Eq by lia. rewrite Em, Z.mod_mul in Er by lia.
    subst r. intros [Hq Hpre].
    change (new_location (Z.pos 4503599627370496) 0) with loc_Exact.
    rewrite xorb_false_r.
    pose proof (pow2_pos (sh - 52) ltac:(lia)) as HP.
    rewrite binary_round_aux_exact_spec; [| nia | assumption | rewrite fexp_eq; exact Hpre].
    rewrite Eq, <- Z.mul_assoc, <- Z.pow_add_r by lia.
    replace (sh - 52 + (e' + 1074)) with (ex + 1074) by (subst sh; lia).
    apply round_scaled_exact. exact V.
Qed.

(** ** Clock differences *)

(** The difference of a finite float with itself is [+0.0]. *)
Lemma sub_diag (x : float) :
  Float.is_finite x = true -> Float.sub x x = Float.zero.
Proof.
  destruct x as [s | s | | s m e]; try discriminate; intros _.
  - destruct s; reflexivity.
  - unfold Float.sub, SFsub. rewrite Z.sub_diag. reflexivity.
Qed.

Lemma opp_involutive (x : float) : SFopp (SFopp x) = x.
Proof. destruct x as [s | s | | s m e]; simpl; rewrite ?negb_involutive; reflexivity. Qed.

(** [round(-x, 2)] is [-round(x, 2)]. *)
Lemma round2_opp (x : float) : round2 (SFopp x) = SFopp (round2 x).
Proof.
  destruct x as [s | s | | s m e]; try reflexivity.
  change (SFopp (S754_finite s m e)) with (S754_finite (negb s) m e).
  unfold round2.
  destruct (0 <=? e); [reflexivity|].
  destruct (round_half_even (100 * Z.pos m) (2 ^ (- e)) =? 0); [reflexivity|].
  destruct s; simpl negb; cbv iota; [rewrite opp_involutive|]; reflexivity.
Qed.

Lemma round2_same_value (x y : float) :
  same_value x y -> same_value (round2 x) (round2 y).
Proof.
  intros [-> | [Zx Zy]]; [left; reflexivity|].
  destruct x, y; try discriminate. right. split; reflexivity.
Qed.

Lemma round_scaled_opp (N : Z) : round_scaled true N = SFopp (round_scaled false N).
Proof.
  unfold round_scaled, finite_or_inf.
  repeat match goal with |- context [if ?b then _ else _] => destruct b end; reflexivity.
Qed.

Lemma round_signed_opp (N : Z) :
  same_value (round_signed (- N)) (SFopp (round_signed N)).
Proof.
  destruct N as [|p|p].
  - right. split; reflexivity.
  - left. change (- Z.pos p) with (Z.neg p). unfold round_signed.
    change (- Z.neg p) with (Z.pos p). apply round_scaled_opp.
  - left. change (- Z.neg p) with (Z.pos p). unfold round_signed.
    change (- Z.neg p) with (Z.pos p).
    rewrite round_scaled_opp, opp_involutive. reflexivity.
Qed.

Lemma same_value_trans (x y z : float) :
  same_value x y -> same_value y z -> same_value x z.
Proof.
  intros [-> | [Zx Zy]] [-> | [Zy' Zz]]; [left; reflexivity | right | right | right]; auto.
Qed.

Lemma same_value_opp (x y : float) :
  same_value x y -> same_value (SFopp x) (SFopp y).
Proof.
  intros [-> | [Zx Zy]]; [left; reflexivity|].
  destruct x, y; try discriminate. right. split; reflexivity.
Qed.

Lemma leb_opp_nonneg (x : float) :
  nonneg x = true -> Float.leb (SFopp x) Float.zero = true.
Proof.
  destruct x as [s | s | | s m e]; try destruct s; simpl; intros H;
    try discriminate; reflexivity.
Qed.

(** Subtraction of a later reading from an earlier one is the opposite of a
    non-negative float. *)
Lemma sub_nonpos (t t0 : float) :
  Float.valid t = true -> Float.valid t0 = true ->
  Float.is_finite t = true -> Float.is_finite t0 = true ->
  Float.leb t t0 = true ->
  exists u, nonneg u = true /\ same_value (Float.sub t t0) (SFopp u).
Proof.
  intros Vt V0 Ft F0 H.
  pose proof (leb_le_scaled t t0 Vt V0 Ft F0 H) as Hsc.
  exists (round_signed (scaled t0 - scaled t)). split.
  - apply round_signed_nonneg. lia.
  - eapply same_value_trans; [apply sub_spec; assumption|].
    replace (scaled t - scaled t0) with (- (scaled t0 - scaled t)) by lia.
    apply round_signed_opp.
Qed.

(** ** Well-formedness of sums *)

Lemma of_Z_scaled_valid (m e : Z) : Float.valid (Float.of_Z_scaled m e) = true.
Proof.
  assert (H : forall s p, Float.valid (binary_round Float.prec Float.emax s p e) = true).
  { intros s p. unfold binary_round.
    pose proof (shl_align_spec p e (fexp Float.prec Float.emax (Z.pos (digits2_pos p) + e)))
      as [E1 E2].
    destruct (shl_align p e _) as [mz ez]. simpl in E1, E2.
    apply binary_round_aux_valid; [lia|].
    rewrite E2, Zdigits2_mul_pow2 by lia. simpl Zdigits2.
    replace (Z.pos (digits2_pos p) + (e - Z.min e (fexp Float.prec Float.emax (Z.pos (digits2_pos p) + e))) + ez)
      with (Z.pos (digits2_pos p) + e) by lia.
    lia. }
  unfold Float.of_Z_scaled, binary_normalize. destruct m; [reflexivity | apply H | apply H].
Qed.

Lemma add_valid (x y : float) :
  Float.valid x = true -> Float.valid y = true -> Float.valid (Float.add x y) = true.
Proof.
  intros Vx Vy.
  destruct x as [sx | sx | | sx mx ex], y as [sy | sy | | sy my ey];
    try reflexivity; try assumption.
  - destruct sx, sy; reflexivity.
  - destruct sx, sy; reflexivity.
  - apply of_Z_scaled_valid.
Qed.

Lemma sub_valid (x y : float) :
  Float.valid x = true -> Float.valid y = true -> Float.valid (Float.sub x y) = true.
Proof.
  intros Vx Vy.
  destruct x as [sx | sx | | sx mx ex], y as [sy | sy | | sy my ey];
    try reflexivity; try assumption.
  - destruct sx, sy; reflexivity.
  - destruct sx, sy; reflexivity.
  - apply of_Z_scaled_valid.
Qed.




(** ** NaN and zero closes *)

(** A NaN item makes the sum NaN, and zeros sum to [+0.0], under either
    summation. *)
Lemma sum_compensated_nan (c : float) (xs : list float) :
  sum_compensated S754_nan c xs = S754_nan.
Proof.
  revert c. induction xs as [|x xs IH]; intros c.
  - destruct c; reflexivity.
  - cbn [sum_compensated]. apply IH.
Qed.

Lemma sum_compensated_with_nan (f c : float) (xs : list float) :
  In S754_nan xs -> sum_compensated f c xs = S754_nan.
Proof.
  revert f c. induction xs as [|x xs IH]; intros f c H; [destruct H|].
  cbn [sum_compensated]. destruct H as [-> | H].
  - rewrite add_nan_r. apply sum_compensated_nan.
  - apply IH. exact H.
Qed.

Lemma sum_compensated_zeros (xs : list float) :
  Forall (fun x => Float.is_zero x = true) xs ->
  sum_compensated Float.zero Float.zero xs = Float.zero.
Proof.
  induction 1 as [|x xs Hx _ IH]; [reflexivity|].
  destruct x as [s | | |]; try discriminate.
  destruct s; exact IH.
Qed.

Lemma float_sum_with_nan (py : summation) (xs : list float) :
  In S754_nan xs -> float_sum py xs = S754_nan.
Proof.
  intros H. destruct py; unfold float_sum; try unfold sum_neumaier.
  - apply fold_add_with_nan. exact H.
  - destruct xs as [|x xs]; [destruct H|].
    rewrite <- sum_compensated_fold. destruct H as [-> | H].
    + apply sum_compensated_nan.
    + apply sum_compensated_with_nan. exact H.
Qed.

Lemma float_sum_zeros (py : summation) (xs : list float) :
  Forall (fun x => Float.is_zero x = true) xs -> float_sum py xs = Float.zero.
Proof.
  intros H. destruct py; unfold float_sum; try unfold sum_neumaier.
  - apply fold_add_zeros. exact H.
  - destruct H as [|x xs Hx Hxs]; [reflexivity|].
    rewrite <- sum_compensated_fold.
    replace (Float.add Float.zero x) with Float.zero.
    + apply sum_compensated_zeros. exact Hxs.
    + destruct x as [s | | |]; try discriminate. destruct s; reflexivity.
Qed.

Lemma float_sum_single (py : summation) (x : float) :
  float_sum py [x] = Float.add Float.zero x.
Proof. destruct py; reflexivity. Qed.







(** ** Exact quotients *)









(** ** Appending the mean *)


(** ** Rounding of signed values *)

Lemma round_Z_exact_mult (k j : Z) :
  0 < k -> Zdigits2 k <= 53 -> 0 <= j -> round_Z (k * 2 ^ j) = k * 2 ^ j.
Proof.
  intros Hk Hd Hj. unfold round_Z. rewrite Zdigits2_mul_pow2 by lia.
  destruct (Z.leb_spec (Zdigits2 k + j) 53) as [|G]; [reflexivity|].
  set (n := Zdigits2 k + j - 53).
  replace (k * 2 ^ j) with (k * 2 ^ (j - n) * 2 ^ n)
    by (rewrite <- Z.mul_assoc, <- Z.pow_add_r by lia; do 2 f_equal; lia).
  rewrite round_half_even_exact by (apply pow2_pos; lia). reflexivity.
Qed.

Lemma round_Z_pos (N : Z) : 0 < N -> 0 < round_Z N.
Proof.
  intros HN. pose proof (round_Z_bounds N HN) as [H _].
  destruct (Zdigits2_bounds N HN) as [Hd _].
  pose proof (pow2_pos (Zdigits2 N - 1) ltac:(lia)). lia.
Qed.

Lemma round_Z_signed_mono (N1 N2 : Z) :
  N1 <= N2 -> round_Z_signed N1 <= round_Z_signed N2.
Proof.
  intros H. destruct N1 as [|p1|p1], N2 as [|p2|p2]; try lia; unfold round_Z_signed.
  - pose proof (round_Z_pos (Z.pos p2) ltac:(lia)). lia.
  - apply round_Z_mono. lia.
  - pose proof (round_Z_pos (- Z.neg p1) ltac:(lia)). lia.
  - pose proof (round_Z_pos (- Z.neg p1) ltac:(lia)).
    pose proof (round_Z_pos (Z.pos p2) ltac:(lia)). lia.
  - pose proof (round_Z_mono (- Z.neg p2) (- Z.neg p1) ltac:(lia)). lia.
Qed.

Lemma round_Z_signed_opp (N : Z) : round_Z_signed (- N) = - round_Z_signed N.
Proof.
  destruct N as [|p|p]; [reflexivity | |].
  - change (- Z.pos p) with (Z.neg p). unfold round_Z_signed.
    change (- Z.neg p) with (Z.pos p). reflexivity.
  - change (- Z.neg p) with (Z.pos p). unfold round_Z_signed.
    change (- Z.neg p) with (Z.pos p). lia.
Qed.

Lemma round_Z_signed_exact_mult (k j : Z) :
  0 <= k -> Zdigits2 k <= 53 -> 0 <= j -> round_Z_signed (k * 2 ^ j) = k * 2 ^ j.
Proof.
  intros Hk Hd Hj. destruct (Z.eq_dec k 0) as [-> | Hnz]; [reflexivity|].
  pose proof (pow2_pos j Hj) as HP.
  assert (HN : 0 < k * 2 ^ j) by nia.
  pose proof (round_Z_exact_mult k j ltac:(lia) Hd Hj) as E.
  destruct (k * 2 ^ j) as [|p|p]; try lia. exact E.
Qed.

Lemma round_Z_signed_scaled (x : float) :
  Float.valid x = true -> Float.is_finite x = true ->
  round_Z_signed (scaled x) = scaled x.
Proof.
  intros V F. destruct x as [s | s | | s m e]; try discriminate; [reflexivity|].
  simpl in V. pose proof V as B. apply bounded_inv in B as (He & Hd & _).
  unfold scaled. destruct s.
  - replace (- Z.pos m * 2 ^ (e + 1074)) with (- (Z.pos m * 2 ^ (e + 1074))) by lia.
    rewrite round_Z_signed_opp, round_Z_signed_exact_mult; [reflexivity | lia | exact Hd | lia].
  - apply round_Z_signed_exact_mult; [lia | exact Hd | lia].
Qed.

Lemma scaled_round_signed (N : Z) :
  Float.is_finite (round_signed N) = true ->
  scaled (round_signed N) = round_Z_signed N.
Proof.
  destruct N as [|p|p]; [reflexivity | |]; unfold round_signed, round_Z_signed.
  - destruct (round_scaled_cases false (Z.pos p) ltac:(lia))
      as [(_ & m & e & -> & _ & V) | (_ & ->)]; [|discriminate].
    intros _. exact V.
  - change (- Z.neg p) with (Z.pos p).
    destruct (round_scaled_cases true (Z.pos p) ltac:(lia))
      as [(_ & m & e & -> & _ & V) | (_ & ->)]; [|discriminate].
    intros _. unfold scaled. lia.
Qed.

Lemma same_value_scaled (x y : float) : same_value x y -> scaled x = scaled y.
Proof.
  intros [-> | [Zx Zy]]; [reflexivity|]. destruct x, y; try discriminate. reflexivity.
Qed.

Lemma same_value_finite (x y : float) :
  same_value x y -> Float.is_finite x = Float.is_finite y.
Proof.
  intros [-> | [Zx Zy]]; [reflexivity|]. destruct x, y; try discriminate. reflexivity.
Qed.

(** ** Sums and differences on values *)

Lemma add_spec (x y : float) :
  Float.valid x = true -> Float.valid y = true ->
  Float.is_finite x = true -> Float.is_finite y = true ->
  same_value (Float.add x y) (round_signed (scaled x + scaled y)).
Proof.
  intros Vx Vy Fx Fy.
  destruct x as [sx | sx | | sx mx ex], y as [sy | sy | | sy my ey]; try discriminate.
  - right. split; [|reflexivity]. destruct sx, sy; reflexivity.
  - left. change (Float.add (S754_zero sx) (S754_finite sy my ey))
      with (S754_finite sy my ey).
    pose proof (round_signed_exact (S754_finite sy my ey) Vy eq_refl) as E.
    cbv iota in E. rewrite <- E at 1. reflexivity.
  - left. change (Float.add (S754_finite sx mx ex) (S754_zero sy))
      with (S754_finite sx mx ex).
    pose proof (round_signed_exact (S754_finite sx mx ex) Vx eq_refl) as E.
    cbv iota in E. rewrite <- E at 1. f_equal.
    unfold scaled. ring.
  - left. simpl in Vx, Vy.
    apply bounded_inv in Vx as (Hex & _), Vy as (Hey & _).
    unfold Float.add, SFadd.
    pose proof (shl_align_spec mx ex (Z.min ex ey)) as [_ Ex].
    pose proof (shl_align_spec my ey (Z.min ex ey)) as [_ Ey].
    rewrite Ex, Ey.
    replace (Z.min ex (Z.min ex ey)) with (Z.min ex ey) by lia.
    replace (Z.min ey (Z.min ex ey)) with (Z.min ex ey) by lia.
    fold (Float.of_Z_scaled
            (cond_Zopp sx (Z.pos mx * 2 ^ (ex - Z.min ex ey)) +
             cond_Zopp sy (Z.pos my * 2 ^ (ey - Z.min ex ey))) (Z.min ex ey)).
    rewrite binary_normalize_spec by lia. f_equal.
    unfold scaled.
    replace (2 ^ (ex + 1074)) with (2 ^ (ex - Z.min ex ey) * 2 ^ (Z.min ex ey + 1074))
      by (rewrite <- Z.pow_add_r by lia; f_equal; lia).
    replace (2 ^ (ey + 1074)) with (2 ^ (ey - Z.min ex ey) * 2 ^ (Z.min ex ey + 1074))
      by (rewrite <- Z.pow_add_r by lia; f_equal; lia).
    destruct sx, sy; unfold cond_Zopp; ring.
Qed.

Lemma add_scaled (x y : float) :
  Float.valid x = true -> Float.valid y = true ->
  Float.is_finite x = true -> Float.is_finite y = true ->
  Float.is_finite (Float.add x y) = true ->
  scaled (Float.add x y) = round_Z_signed (scaled x + scaled y).
Proof.
  intros Vx Vy Fx Fy F. pose proof (add_spec x y Vx Vy Fx Fy) as S.
  rewrite (same_value_scaled _ _ S). apply scaled_round_signed.
  rewrite <- (same_value_finite _ _ S). exact F.
Qed.

Lemma sub_scaled (x y : float) :
  Float.valid x = true -> Float.valid y = true ->
  Float.is_finite x = true -> Float.is_finite y = true ->
  Float.is_finite (Float.sub x y) = true ->
  scaled (Float.sub x y) = round_Z_signed (scaled x - scaled y).
Proof.
  intros Vx Vy Fx Fy F. pose proof (sub_spec x y Vx Vy Fx Fy) as S.
  rewrite (same_value_scaled _ _ S). apply scaled_round_signed.
  rewrite <- (same_value_finite _ _ S). exact F.
Qed.

Lemma add_finite_inv (x y : float) :
  Float.is_finite (Float.add x y) = true ->
  Float.is_finite x = true /\ Float.is_finite y = true.
Proof.
  destruct x as [sx | sx | | sx mx ex], y as [sy | sy | | sy my ey];
    try (intros _; split; reflexivity);
    try (simpl; intros E; discriminate E);
    try (destruct sx, sy; simpl; intros E; discriminate E).
Qed.

Lemma sub_finite_inv (x y : float) :
  Float.is_finite (Float.sub x y) = true ->
  Float.is_finite x = true /\ Float.is_finite y = true.
Proof.
  destruct x as [sx | sx | | sx mx ex], y as [sy | sy | | sy my ey];
    try (intros _; split; reflexivity);
    try (simpl; intros E; discriminate E);
    try (destruct sx, sy; simpl; intros E; discriminate E).
Qed.

(** ** Exact differences *)

Lemma canonical_exp_le (m1 m2 : positive) (e1 e2 : Z) :
  bounded Float.prec Float.emax m1 e1 = true ->
  bounded Float.prec Float.emax m2 e2 = true ->
  Z.pos m1 * 2 ^ (e1 + 1074) <= Z.pos m2 * 2 ^ (e2 + 1074) ->
  e1 <= e2.
Proof.
  intros B1 B2 H. pose proof (canonical_compare m1 e1 m2 e2 B1 B2) as C.
  destruct (Z.compare_spec e1 e2) as [E | L | G]; [lia | lia |].
  symmetry in C. apply Z.compare_gt_iff in C. lia.
Qed.

Lemma scaled_nonneg (x : float) : nonneg x = true -> 0 <= scaled x.
Proof.
  destruct x as [s | s | | s m e]; simpl; try lia.
  intros H. apply andb_true_iff in H as [Hs B]. destruct s; [discriminate|].
  apply bounded_inv in B as (He & _).
  pose proof (pow2_pos (e + 1074) ltac:(lia)). nia.
Qed.

Lemma nonneg_valid (x : float) : nonneg x = true -> Float.valid x = true.
Proof.
  destruct x as [s | s | | s m e]; simpl; try reflexivity; try discriminate.
  intros H. apply andb_true_iff in H as [_ B]. exact B.
Qed.

(** The difference of two non-negative floats within a factor two of each
    other is a float (Sterbenz). *)
Lemma sub_exact_within_double (a b : float) :
  nonneg a = true -> nonneg b = true ->
  Float.is_finite a = true -> Float.is_finite b = true ->
  scaled a <= scaled b <= 2 * scaled a ->
  round_Z_signed (scaled a - scaled b) = scaled a - scaled b.
Proof.
  intros Na Nb Fa Fb H.
  destruct a as [sa | sa | | sa ma ea]; try discriminate.
  - simpl scaled in *. assert (E : scaled b = 0) by lia. rewrite E. reflexivity.
  - simpl in Na. apply andb_true_iff in Na as [Hsa Ba]. destruct sa; [discriminate|].
    pose proof Ba as Ba'. apply bounded_inv in Ba' as (Hea & Hda & _).
    pose proof (pow2_pos (ea + 1074) ltac:(lia)) as Pa.
    destruct b as [sb | sb | | sb mb eb]; try discriminate.
    + exfalso. simpl scaled in H. nia.
    + simpl in Nb. apply andb_true_iff in Nb as [Hsb Bb]. destruct sb; [discriminate|].
      pose proof Bb as Bb'. apply bounded_inv in Bb' as (Heb & _).
      unfold scaled in *.
      pose proof (canonical_exp_le ma mb ea eb Ba Bb ltac:(lia)) as Hexp.
      replace (2 ^ (eb + 1074)) with (2 ^ (eb - ea) * 2 ^ (ea + 1074)) in *
        by (rewrite <- Z.pow_add_r by lia; f_equal; lia).
      pose proof (pow2_pos (eb - ea) ltac:(lia)) as Pd.
      set (k := Z.pos mb * 2 ^ (eb - ea) - Z.pos ma).
      assert (Hk : 0 <= k <= Z.pos ma) by (subst k; nia).
      replace (Z.pos ma * 2 ^ (ea + 1074) - Z.pos mb * (2 ^ (eb - ea) * 2 ^ (ea + 1074)))
        with (- (k * 2 ^ (ea + 1074))) by (subst k; ring).
      rewrite round_Z_signed_opp, round_Z_signed_exact_mult; [reflexivity | lia | | lia].
      destruct (Z.eq_dec k 0) as [-> | Hnz]; [simpl; lia|].
      pose proof (Zdigits2_mono k (Z.pos ma) ltac:(lia)). simpl Zdigits2 in *. lia.
Qed.

Lemma abs_nonneg (x : float) :
  nonneg x = true ->
  nonneg (SFabs x) = true /\ Float.is_finite (SFabs x) = Float.is_finite x /\
  scaled (SFabs x) = scaled x.
Proof.
  destruct x as [s | s | | s m e]; simpl; try discriminate; auto.
  intros H. apply andb_true_iff in H as [Hs B]. destruct s; [discriminate|].
  rewrite B. auto.
Qed.

Lemma leb_abs_nonneg (x f : float) :
  nonneg x = true -> nonneg f = true ->
  Float.is_finite x = true -> Float.is_finite f = true ->
  Float.leb (SFabs x) (SFabs f) = (scaled x <=? scaled f).
Proof.
  intros Nx Nf Fx Ff.
  destruct (abs_nonneg x Nx) as (Nx' & Fx' & Sx).
  destruct (abs_nonneg f Nf) as (Nf' & Ff' & Sf).
  rewrite leb_scaled; [rewrite Sx, Sf; reflexivity | | | |];
    first [apply nonneg_valid; assumption | congruence].
Qed.

(** ** Non-negative items under compensation *)

(** With non-negative items, the compensation never outweighs the running
    sum. *)
Lemma compensate_nonneg (f c x : float) :
  nonneg f = true -> Float.valid c = true -> nonneg x = true ->
  (Float.is_finite f = true -> Float.is_finite c = true -> 0 <= scaled f + scaled c) ->
  let st' := compensate (f, c) x in
  nonneg (fst st') = true /\ Float.valid (snd st') = true /\
  (Float.is_finite (fst st') = true -> Float.is_finite (snd st') = true ->
   0 <= scaled (fst st') + scaled (snd st')).
Proof.
  intros Nf Vc Nx Inv. unfold compensate. cbn [fst snd].
  pose proof (nonneg_valid f Nf) as Vf. pose proof (nonneg_valid x Nx) as Vx.
  set (t := Float.add f x).
  assert (Nt : nonneg t = true) by (apply add_nonneg; assumption).
  pose proof (nonneg_valid t Nt) as Vt.
  set (e := if Float.leb (SFabs x) (SFabs f)
            then Float.add (Float.sub f t) x
            else Float.add (Float.sub x t) f).
  assert (Ve : Float.valid e = true).
  { subst e. destruct (Float.leb (SFabs x) (SFabs f));
      (apply add_valid; [apply sub_valid|]; assumption). }
  split; [exact Nt|]. split; [apply add_valid; assumption|].
  intros Ft Fc'.
  destruct (add_finite_inv f x Ft) as [Ff Fx].
  destruct (add_finite_inv c e Fc') as [Fc Fe].
  specialize (Inv Ff Fc).
  pose proof (scaled_nonneg f Nf) as Hf0. pose proof (scaled_nonneg x Nx) as Hx0.
  pose proof (add_scaled f x Vf Vx Ff Fx Ft) as ET. fold t in ET.
  pose proof (round_Z_signed_scaled f Vf Ff) as Rf.
  pose proof (round_Z_signed_scaled x Vx Fx) as Rx.
  pose proof (round_Z_signed_scaled t Vt Ft) as Rt.
  (* the compensation term is at least [f - t] *)
  assert (He : scaled f - scaled t <= scaled e).
  { subst e. rewrite (leb_abs_nonneg x f Nx Nf Fx Ff) in *.
    destruct (Z.leb_spec (scaled x) (scaled f)) as [Hxf | Hfx].
    - destruct (add_finite_inv _ _ Fe) as [Fu _].
      pose proof (sub_valid f t Vf Vt) as Vu.
      rewrite (add_scaled _ _ Vu Vx Fu Fx Fe).
      pose proof (round_Z_signed_mono (scaled f) (scaled f + scaled x) ltac:(lia)) as M1.
      pose proof (round_Z_signed_mono (scaled f + scaled x) (2 * scaled f) ltac:(lia)) as M2.
      assert (R2 : round_Z_signed (2 * scaled f) = 2 * scaled f).
      { clear -Vf Ff Nf. destruct f as [s | s | | s m e0]; try discriminate; [reflexivity|].
        simpl in Nf. apply andb_true_iff in Nf as [Hs B]. destruct s; [discriminate|].
        apply bounded_inv in B as (He0 & Hd & _). unfold scaled.
        replace (2 * (Z.pos m * 2 ^ (e0 + 1074))) with (Z.pos m * 2 ^ (e0 + 1075))
          by (replace (e0 + 1075) with (e0 + 1074 + 1) by lia;
              rewrite Z.pow_add_r by lia; change (2 ^ 1) with 2; ring).
        apply round_Z_signed_exact_mult; [lia | exact Hd | lia]. }
      pose proof (sub_exact_within_double f t Nf Nt Ff Ft ltac:(lia)) as SB.
      pose proof (sub_scaled f t Vf Vt Ff Ft Fu) as EU. rewrite SB in EU.
      pose proof (round_Z_signed_scaled _ Vu Fu) as Ru.
      pose proof (round_Z_signed_mono (scaled (Float.sub f t))
                    (scaled (Float.sub f t) + scaled x) ltac:(lia)). lia.
    - destruct (add_finite_inv _ _ Fe) as [Fu _].
      pose proof (sub_valid x t Vx Vt) as Vu.
      rewrite (add_scaled _ _ Vu Vf Fu Ff Fe).
      pose proof (round_Z_signed_mono (scaled x) (scaled f + scaled x) ltac:(lia)) as M1.
      pose proof (round_Z_signed_mono (scaled f + scaled x) (2 * scaled x) ltac:(lia)) as M2.
      assert (R2 : round_Z_signed (2 * scaled x) = 2 * scaled x).
      { clear -Vx Fx Nx. destruct x as [s | s | | s m e0]; try discriminate; [reflexivity|].
        simpl in Nx. apply andb_true_iff in Nx as [Hs B]. destruct s; [discriminate|].
        apply bounded_inv in B as (He0 & Hd & _). unfold scaled.
        replace (2 * (Z.pos m * 2 ^ (e0 + 1074))) with (Z.pos m * 2 ^ (e0 + 1075))
          by (replace (e0 + 1075) with (e0 + 1074 + 1) by lia;
              rewrite Z.pow_add_r by lia; change (2 ^ 1) with 2; ring).
        apply round_Z_signed_exact_mult; [lia | exact Hd | lia]. }
      pose proof (sub_exact_within_double x t Nx Nt Fx Ft ltac:(lia)) as SB.
      pose proof (sub_scaled x t Vx Vt Fx Ft Fu) as EU. rewrite SB in EU.
      pose proof (round_Z_signed_scaled _ Vu Fu) as Ru.
      pose proof (round_Z_signed_mono (scaled (Float.sub x t))
                    (scaled (Float.sub x t) + scaled f) ltac:(lia)). lia. }
  rewrite (add_scaled c e Vc Ve Fc Fe Fc').
  pose proof (round_Z_signed_mono (- scaled t) (scaled c + scaled e) ltac:(lia)) as M.
  rewrite round_Z_signed_opp, Rt in M. lia.
Qed.

Lemma compensate_nonneg_fold (xs : list float) (st : float * float) :
  Forall (fun x => nonneg x = true) xs ->
  nonneg (fst st) = true -> Float.valid (snd st) = true ->
  (Float.is_finite (fst st) = true -> Float.is_finite (snd st) = true ->
   0 <= scaled (fst st) + scaled (snd st)) ->
  nonneg (compensated_total (fold_left compensate xs st)) = true.
Proof.
  intros Hxs. revert st. induction Hxs as [|x xs Nx _ IH]; intros [f c] Nf Vc Inv.
  - cbn [fold_left]. unfold compensated_total. simpl in Nf, Vc, Inv |- *.
    destruct (Float.is_finite c && negb (Float.is_zero c)) eqn:E; [|exact Nf].
    apply andb_true_iff in E as [Fc _].
    destruct (Float.is_finite f) eqn:Ff.
    + eapply same_value_nonneg;
        [apply add_spec; first [apply nonneg_valid; assumption | assumption]|].
      apply round_signed_nonneg. auto.
    + destruct f as [s | s | | s m e]; try discriminate.
      destruct s; [discriminate|]. destruct c; try discriminate; reflexivity.
  - cbn [fold_left]. simpl in Nf, Vc, Inv.
    pose proof (compensate_nonneg f c x Nf Vc Nx Inv) as (H1 & H2 & H3).
    apply IH; assumption.
Qed.

Lemma float_sum_nonneg (py : summation) (xs : list float) :
  Forall (fun x => nonneg x = true) xs -> nonneg (float_sum py xs) = true.
Proof.
  intros Hxs. destruct py; unfold float_sum; try unfold sum_neumaier.
  - apply fold_add_nonneg; [reflexivity | assumption].
  - destruct Hxs as [|x xs Nx Hxs]; [reflexivity|].
    assert (N0 : nonneg (Float.add Float.zero x) = true)
      by (apply add_nonneg; [reflexivity | assumption]).
    apply compensate_nonneg_fold; [assumption | exact N0 | reflexivity |].
    cbn [fst snd]. intros _ _. pose proof (scaled_nonneg _ N0). simpl scaled at 2. lia.
Qed.

(** * The claims *)

(** C1, as stated, fails on an interpreter whose [sum] is compensated
    (CPython 3.12 and later).  Ten candles close at 0.1: added one after the
    other they give 0.9999999999999999, so the mean in forward summation
    order is 0.09999999999999999, but the compensated [sum] is 1.0 and
    [average_close] is 0.1. *)
Lemma compensated_average_is_not_forward_mean :
  candles ten_tenths_request <> [] /\
  result (compute Compensated ten_tenths_request) =
    Return {| count := 10; last_close := f0_1; average_close := f0_1 |} /\
  mean_forward (map close (candles ten_tenths_request)) = f0_1_pred /\
  f0_1 <> f0_1_pred.
Proof.
  split; [discriminate|]. split; [vm_compute; reflexivity|].
  split; [vm_compute; reflexivity|]. discriminate.
Qed.

(** C1, amended.  For every non-empty candle sequence given to [compute],
    the returned [average_close] is the sum of the closes, as the [sum] of
    the interpreter computes it, divided by the number of candles: the
    mean in forward summation order when [sum] adds the closes one after
    the other, the mean under Neumaier's summation when [sum] is
    compensated. *)
Theorem compute_average_close_is_mean_of_sum (py : summation) (req : ComputeRequest) :
  candles req <> [] ->
  Z.of_nat (length (candles req)) <= PY_SSIZE_T_MAX ->
  exists r, result (compute py req) = Return r /\
            average_close r =
            match py with
            | Forward => mean_forward (map close (candles req))
            | Compensated => mean_compensated (map close (candles req))
            end.
Proof.
  intros Hne Hlen. destruct (last_map_close _ Hne) as (c & _ & Hlast).
  rewrite (compute_run py req _ Hlast Hlen). eexists. split; [reflexivity|].
  destruct py; reflexivity.
Qed.

Lemma compute_average_close_is_mean_of_sum_witness :
  candles ten_tenths_request <> [] /\
  Z.of_nat (length (candles ten_tenths_request)) <= PY_SSIZE_T_MAX /\
  exists r, result (compute Compensated ten_tenths_request) = Return r /\
            average_close r = mean_compensated (map close (candles ten_tenths_request)).
Proof.
  split; [discriminate|]. split; [vm_compute; discriminate|].
  apply (compute_average_close_is_mean_of_sum Compensated ten_tenths_request);
    [discriminate | vm_compute; discriminate].
Defined.

(** C2. For every non-empty candle sequence given to [compute], the returned
    [last_close] is the close of the final candle in input order, whatever
    the timestamps are. *)
Theorem compute_last_close_is_final_element
        (py : summation) (cs : list Candle) (c : Candle) :
  Z.of_nat (length (cs ++ [c])) <= PY_SSIZE_T_MAX ->
  exists r, result (compute py {| candles := cs ++ [c] |}) = Return r /\
            last_close r = close c.
Proof.
  intros Hlen.
  assert (Hlast : last (map close (candles {| candles := cs ++ [c] |})) = Some (close c)).
  { simpl candles. rewrite map_app. simpl map. apply last_snoc. }
  rewrite (compute_run py _ _ Hlast Hlen). eexists. split; reflexivity.
Qed.

Lemma compute_last_close_is_final_element_witness :
  Z.of_nat (length ([bar 3 f10; bar 1 f20] ++ [bar 2 f30])) <= PY_SSIZE_T_MAX /\
  exists r, result (compute Forward {| candles := [bar 3 f10; bar 1 f20] ++ [bar 2 f30] |})
            = Return r /\
            last_close r = close (bar 2 f30).
Proof.
  split; [vm_compute; discriminate|].
  apply (compute_last_close_is_final_element Forward [bar 3 f10; bar 1 f20] (bar 2 f30)).
  vm_compute; discriminate.
Defined.

(** C3. For every non-empty candle sequence given to [compute], the returned
    [count] is the number of candles. *)
Theorem compute_count_is_length (py : summation) (req : ComputeRequest) :
  candles req <> [] ->
  Z.of_nat (length (candles req)) <= PY_SSIZE_T_MAX ->
  exists r, result (compute py req) = Return r /\
            count r = Z.of_nat (length (candles req)).
Proof.
  intros Hne Hlen. destruct (last_map_close _ Hne) as (c & _ & Hlast).
  rewrite (compute_run py req _ Hlast Hlen). eexists. split; reflexivity.
Qed.

Lemma compute_count_is_length_witness :
  candles sample_request <> [] /\
  Z.of_nat (length (candles sample_request)) <= PY_SSIZE_T_MAX /\
  exists r, result (compute Compensated sample_request) = Return r /\
            count r = Z.of_nat (length (candles sample_request)).
Proof.
  split; [discriminate|]. split; [vm_compute; discriminate|].
  apply (compute_count_is_length Compensated sample_request);
    [discriminate | vm_compute; discriminate].
Defined.

(** C4. On the empty candle sequence [compute] does not return a
    [ComputeResponse]: it ends with an unhandled index-out-of-range fault,
    which the framework turns into a server error. *)
Theorem compute_empty_faults (py : summation) :
  (forall r, result (compute py {| candles := [] |}) <> Return r) /\
  result (compute py {| candles := [] |}) = Raise IndexError /\
  (forall g w, snd (serve py g w (POST_compute {| candles := [] |})) =
               {| status_code := 500; body := ServerError |}).
Proof.
  rewrite compute_empty. split; [|split].
  - intros r H. discriminate.
  - reflexivity.
  - reflexivity.
Qed.




(** C6. The response of [compute] depends only on the closes: two sequences
    of the same length whose candles agree pairwise on [close] get the same
    outcome, hence the same [count], [last_close] and [average_close]. *)
Theorem compute_depends_only_on_close (py : summation) (req1 req2 : ComputeRequest) :
  Forall2 (fun a b => close a = close b) (candles req1) (candles req2) ->
  compute py req1 = compute py req2.
Proof.
  intros H. unfold compute. rewrite (map_close_agree _ _ H). reflexivity.
Qed.

Lemma compute_depends_only_on_close_witness :
  Forall2 (fun a b => close a = close b)
          (candles sample_request) (candles sample_request') /\
  compute Compensated sample_request = compute Compensated sample_request'.
Proof.
  assert (H : Forall2 (fun a b => close a = close b)
                      (candles sample_request) (candles sample_request'))
    by (repeat constructor).
  split; [exact H|].
  exact (compute_depends_only_on_close Compensated sample_request sample_request' H).
Defined.

(** C7. Every invocation of [health] answers with status 200 and the body
    [{"status": "ok"}], whatever the module state and the environment. *)
Theorem health_always_ok (py : summation) (g : Globals) (w : World) :
  snd (serve py g w GET_health) =
  {| status_code := 200; body := JsonDict {[ "status" := VStr "ok" ]} |}.
Proof. reflexivity. Qed.

(** C8. In every process lifetime, each [meta] response carries as
    [version] the value [SERVICE_VERSION] had in the environment when the
    module was loaded, or ["dev"] when it was not set then; the environment
    at the time of the request plays no part. *)
Theorem meta_version_fixed_at_load
        (py : summation) (w0 : World) (calls : list (World * request))
        (i : nat) (w : World) :
  calls !! i = Some (w, GET_meta) ->
  exists r, run py w0 calls !! i = Some r /\
            status_code r = 200 /\
            response_field r "version" =
            Some (VStr match environ w0 !! "SERVICE_VERSION" with
                       | Some v => v
                       | None => "dev"
                       end).
Proof.
  intros H. unfold run. rewrite (serve_all_lookup _ _ _ _ _ _ H).
  eexists. split; [reflexivity|]. split; [reflexivity|].
  unfold response_field. simpl. apply meta_version.
Qed.

Lemma meta_version_fixed_at_load_witness :
  [(w_later, GET_health); (w_back, GET_meta)] !! 1%nat = Some (w_back, GET_meta) /\
  exists r, run Forward w_boot [(w_later, GET_health); (w_back, GET_meta)] !! 1%nat
            = Some r /\
            status_code r = 200 /\
            response_field r "version" =
            Some (VStr match environ w_boot !! "SERVICE_VERSION" with
                       | Some v => v
                       | None => "dev"
                       end).
Proof.
  split; [reflexivity|].
  apply (meta_version_fixed_at_load Forward w_boot
           [(w_later, GET_health); (w_back, GET_meta)] 1%nat w_back).
  reflexivity.
Defined.

(** C9, as stated, fails.  The uptime is measured on the wall clock: when
    the clock is set back below [START_TIME], here from 1700000000.0 to
    1699999990.0, [meta] reports [uptime_seconds = -10.0]. *)
Lemma uptime_negative_when_clock_set_back :
  exists r u,
    (forall py, run py w_boot [(w_back, GET_meta)] !! 0%nat = Some r) /\
    response_field r "uptime_seconds" = Some (VFloat u) /\
    u = S754_finite true 5629499534213120 (-49) /\
    Float.leb Float.zero u = false.
Proof.
  exists {| status_code := 200; body := JsonDict (meta (load w_boot) w_back) |},
         (uptime_seconds (load w_boot) w_back).
  split; [intros py; reflexivity|].
  split; [unfold response_field; simpl; apply meta_uptime|].
  split; vm_compute; reflexivity.
Qed.

(** C9, amended.  In a process lifetime whose wall-clock readings never go
    backwards, every [meta] response has a non-negative [uptime_seconds],
    and of two [meta] responses the later one has the greater or equal
    [uptime_seconds]. *)
Theorem meta_uptime_monotone
        (py : summation) (w0 : World) (calls : list (World * request))
        (i j : nat) (wi wj : World) :
  clock_monotone w0 calls = true ->
  (i <= j)%nat ->
  calls !! i = Some (wi, GET_meta) ->
  calls !! j = Some (wj, GET_meta) ->
  exists ri rj ui uj,
    run py w0 calls !! i = Some ri /\
    run py w0 calls !! j = Some rj /\
    response_field ri "uptime_seconds" = Some (VFloat ui) /\
    response_field rj "uptime_seconds" = Some (VFloat uj) /\
    Float.leb Float.zero ui = true /\
    Float.leb Float.zero uj = true /\
    Float.leb ui uj = true.
Proof.
  intros Hc Hij Hi Hj.
  destruct (clock_monotone_readings w0 calls i j wi wj _ _ Hc Hij Hi Hj)
    as (F0 & V0 & Fi & Vi & Fj & Vj & L0i & Lij).
  destruct (clock_monotone_readings w0 calls j j wj wj _ _ Hc (Nat.le_refl j) Hj Hj)
    as (_ & _ & _ & _ & _ & _ & L0j & _).
  exists (snd (serve py (load w0) wi GET_meta)), (snd (serve py (load w0) wj GET_meta)),
         (uptime_seconds (load w0) wi), (uptime_seconds (load w0) wj).
  unfold run.
  rewrite (serve_all_lookup _ _ _ _ _ _ Hi), (serve_all_lookup _ _ _ _ _ _ Hj).
  split; [reflexivity|]. split; [reflexivity|].
  split; [unfold response_field; simpl; apply meta_uptime|].
  split; [unfold response_field; simpl; apply meta_uptime|].
  split; [apply leb_zero_nonneg, uptime_nonneg; assumption|].
  split; [apply leb_zero_nonneg, uptime_nonneg; assumption|].
  unfold uptime_seconds. simpl START_TIME.
  apply round2_mono.
  - apply sub_nonneg; assumption.
  - apply sub_nonneg; assumption.
  - apply sub_mono; assumption.
Qed.

Lemma meta_uptime_monotone_witness :
  clock_monotone w_boot [(w_boot, GET_meta); (w_later, GET_meta)] = true /\
  (0 <= 1)%nat /\
  [(w_boot, GET_meta); (w_later, GET_meta)] !! 0%nat = Some (w_boot, GET_meta) /\
  [(w_boot, GET_meta); (w_later, GET_meta)] !! 1%nat = Some (w_later, GET_meta) /\
  exists ri rj ui uj,
    run Forward w_boot [(w_boot, GET_meta); (w_later, GET_meta)] !! 0%nat = Some ri /\
    run Forward w_boot [(w_boot, GET_meta); (w_later, GET_meta)] !! 1%nat = Some rj /\
    response_field ri "uptime_seconds" = Some (VFloat ui) /\
    response_field rj "uptime_seconds" = Some (VFloat uj) /\
    Float.leb Float.zero ui = true /\
    Float.leb Float.zero uj = true /\
    Float.leb ui uj = true.
Proof.
  split; [vm_compute; reflexivity|]. split; [lia|].
  split; [reflexivity|]. split; [reflexivity|].
  apply (meta_uptime_monotone Forward w_boot [(w_boot, GET_meta); (w_later, GET_meta)]
           0%nat 1%nat w_boot w_later).
  - vm_compute; reflexivity.
  - lia.
  - reflexivity.
  - reflexivity.
Defined.

(** C10. On the empty candle sequence the fault of [compute] is the
    [IndexError] of [closes[-1]]: only [len] and the subscript are evaluated,
    and the division, which on its own would raise [ZeroDivisionError], is
    never reached. *)
Theorem compute_empty_index_error_before_division (py : summation) :
  compute py {| candles := [] |} = ([OpLen; OpSubscript], Raise IndexError) /\
  ~ In OpSum (trace (compute py {| candles := [] |})) /\
  ~ In OpTrueDiv (trace (compute py {| candles := [] |})) /\
  average_close_of py [] = ([OpSum; OpLen; OpTrueDiv], Raise ZeroDivisionError).
Proof.
  split; [reflexivity|]. rewrite compute_empty. simpl trace.
  split; [|split].
  - intros [H | [H | []]]; discriminate.
  - intros [H | [H | []]]; discriminate.
  - destruct py; reflexivity.
Qed.

(** * Further properties of the handlers *)

(** X1. Within the length a Python list can have, the only fault of
    [compute] is the [IndexError] of the empty request: it never raises
    [ZeroDivisionError] or [OverflowError]. *)
Theorem compute_faults_only_on_empty (py : summation) (req : ComputeRequest) (e : exn) :
  Z.of_nat (length (candles req)) <= PY_SSIZE_T_MAX ->
  result (compute py req) = Raise e ->
  candles req = [] /\ e = IndexError.
Proof.
  intros Hlen Hr. destruct (candles req) as [|c cs] eqn:E.
  - destruct req as [cs']. simpl in E. subst cs'. rewrite compute_empty in Hr.
    injection Hr as <-. auto.
  - assert (Hne : candles req <> []) by (rewrite E; discriminate).
    destruct (last_map_close _ Hne) as (c0 & _ & Hlast).
    rewrite <- E in Hlen.
    rewrite (compute_run py req _ Hlast Hlen) in Hr. discriminate.
Qed.

Lemma compute_faults_only_on_empty_witness :
  Z.of_nat (length (candles {| candles := [] |})) <= PY_SSIZE_T_MAX /\
  result (compute Compensated {| candles := [] |}) = Raise IndexError /\
  candles {| candles := [] |} = [] /\ IndexError = IndexError.
Proof.
  split; [vm_compute; discriminate|]. split; [reflexivity|].
  apply (compute_faults_only_on_empty Compensated {| candles := [] |} IndexError);
    [vm_compute; discriminate | reflexivity].
Defined.

(** X2. A NaN close anywhere in the request makes [average_close] NaN,
    under either summation: the closes are not validated. *)
Theorem compute_nan_close_gives_nan_average
        (py : summation) (req : ComputeRequest) (c : Candle) :
  In c (candles req) ->
  close c = S754_nan ->
  Z.of_nat (length (candles req)) <= PY_SSIZE_T_MAX ->
  exists r, result (compute py req) = Return r /\ average_close r = S754_nan.
Proof.
  intros Hin Hc Hlen.
  assert (Hne : candles req <> []) by (intros E; rewrite E in Hin; destruct Hin).
  destruct (last_map_close _ Hne) as (c0 & _ & Hlast).
  rewrite (compute_run py req _ Hlast Hlen). eexists. split; [reflexivity|].
  simpl average_close. unfold mean_of.
  rewrite float_sum_with_nan; [reflexivity|].
  rewrite <- Hc. apply in_map. exact Hin.
Qed.

Lemma compute_nan_close_gives_nan_average_witness :
  In (bar 2 S754_nan) (candles nan_request) /\
  close (bar 2 S754_nan) = S754_nan /\
  Z.of_nat (length (candles nan_request)) <= PY_SSIZE_T_MAX /\
  exists r, result (compute Compensated nan_request) = Return r /\
            average_close r = S754_nan.
Proof.
  assert (Hin : In (bar 2 S754_nan) (candles nan_request)) by (right; left; reflexivity).
  split; [exact Hin|]. split; [reflexivity|]. split; [vm_compute; discriminate|].
  apply (compute_nan_close_gives_nan_average Compensated nan_request (bar 2 S754_nan) Hin);
    [reflexivity | vm_compute; discriminate].
Defined.

(** X3. When every close is a well-formed float that is [>= 0], so is
    [average_close], under either summation: it can overflow to the positive
    infinity, but is never negative and never NaN. *)
Theorem compute_nonneg_closes_nonneg_average (py : summation) (req : ComputeRequest) :
  candles req <> [] ->
  Z.of_nat (length (candles req)) <= PY_SSIZE_T_MAX ->
  Forall (fun c => Float.valid (close c) = true /\
                   Float.leb Float.zero (close c) = true) (candles req) ->
  exists r, result (compute py req) = Return r /\
            Float.valid (average_close r) = true /\
            Float.leb Float.zero (average_close r) = true.
Proof.
  intros Hne Hlen Hall.
  destruct (last_map_close _ Hne) as (c0 & _ & Hlast).
  rewrite (compute_run py req _ Hlast Hlen). eexists. split; [reflexivity|].
  simpl average_close. unfold mean_of.
  split; [apply div_valid|].
  assert (Hn : 0 < Z.of_nat (length (map close (candles req))) <= PY_SSIZE_T_MAX).
  { rewrite length_map. destruct (candles req); [congruence | simpl length in *; lia]. }
  destruct (of_Z_length _ Hn) as (m & e & E). rewrite E.
  apply leb_zero_nonneg, div_nonneg, float_sum_nonneg.
  apply Forall_map. eapply Forall_impl; [exact Hall|].
  intros c [V L]. apply nonneg_intro; assumption.
Qed.

Lemma compute_nonneg_closes_nonneg_average_witness :
  candles sample_request <> [] /\
  Z.of_nat (length (candles sample_request)) <= PY_SSIZE_T_MAX /\
  Forall (fun c => Float.valid (close c) = true /\
                   Float.leb Float.zero (close c) = true) (candles sample_request) /\
  exists r, result (compute Compensated sample_request) = Return r /\
            Float.valid (average_close r) = true /\
            Float.leb Float.zero (average_close r) = true.
Proof.
  assert (H : Forall (fun c => Float.valid (close c) = true /\
                     Float.leb Float.zero (close c) = true) (candles sample_request))
    by (repeat constructor).
  split; [discriminate|]. split; [vm_compute; discriminate|]. split; [exact H|].
  apply (compute_nonneg_closes_nonneg_average Compensated sample_request);
    [discriminate | vm_compute; discriminate | exact H].
Defined.

(** X4. On a single candle whose close is a well-formed finite float other
    than [-0.0], [compute] returns count 1 and that close both as
    [last_close] and as [average_close]: adding it to 0 and dividing by 1 are
    exact. *)
Theorem compute_single_candle_exact (py : summation) (c : Candle) :
  Float.valid (close c) = true ->
  Float.is_finite (close c) = true ->
  close c <> S754_zero true ->
  compute py {| candles := [c] |} =
  ([OpLen; OpSubscript; OpSum; OpLen; OpTrueDiv],
   Return {| count := 1; last_close := close c; average_close := close c |}).
Proof.
  intros V F Hnz.
  rewrite (compute_run py {| candles := [c] |} (close c) eq_refl
             ltac:(vm_compute; discriminate)).
  simpl candles. simpl length. simpl map. unfold mean_of.
  rewrite float_sum_single.
  change (Float.of_Z_scaled (Z.of_nat (length [close c])) 0) with f1.
  replace (Float.add Float.zero (close c)) with (close c).
  - rewrite div_one by assumption. reflexivity.
  - destruct (close c) as [s | s | | s m e]; try discriminate; [|reflexivity].
    destruct s; [congruence | reflexivity].
Qed.

Lemma compute_single_candle_exact_witness :
  Float.valid (close (bar 1 f0_1)) = true /\
  Float.is_finite (close (bar 1 f0_1)) = true /\
  close (bar 1 f0_1) <> S754_zero true /\
  compute Compensated {| candles := [bar 1 f0_1] |} =
  ([OpLen; OpSubscript; OpSum; OpLen; OpTrueDiv],
   Return {| count := 1; last_close := close (bar 1 f0_1);
             average_close := close (bar 1 f0_1) |}).
Proof.
  split; [reflexivity|]. split; [reflexivity|]. split; [discriminate|].
  apply (compute_single_candle_exact Compensated (bar 1 f0_1));
    [reflexivity | reflexivity | discriminate].
Defined.

(** X6. When every close is a zero, of either sign, [average_close] is
    [+0.0], under either summation: the sum starts from the integer 0,
    which loses the sign of [-0.0]. *)
Theorem compute_zero_closes_average (py : summation) (req : ComputeRequest) :
  candles req <> [] ->
  Z.of_nat (length (candles req)) <= PY_SSIZE_T_MAX ->
  Forall (fun c => Float.is_zero (close c) = true) (candles req) ->
  exists r, result (compute py req) = Return r /\ average_close r = S754_zero false.
Proof.
  intros Hne Hlen Hall.
  destruct (last_map_close _ Hne) as (c0 & _ & Hlast).
  rewrite (compute_run py req _ Hlast Hlen). eexists. split; [reflexivity|].
  simpl average_close. unfold mean_of.
  rewrite float_sum_zeros by (apply Forall_map; exact Hall).
  assert (Hn : 0 < Z.of_nat (length (map close (candles req))) <= PY_SSIZE_T_MAX).
  { rewrite length_map. destruct (candles req); [congruence | simpl length in *; lia]. }
  destruct (of_Z_length _ Hn) as (m & e & E). rewrite E. reflexivity.
Qed.

Lemma compute_zero_closes_average_witness :
  candles zeros_request <> [] /\
  Z.of_nat (length (candles zeros_request)) <= PY_SSIZE_T_MAX /\
  Forall (fun c => Float.is_zero (close c) = true) (candles zeros_request) /\
  exists r, result (compute Compensated zeros_request) = Return r /\
            average_close r = S754_zero false.
Proof.
  assert (H : Forall (fun c => Float.is_zero (close c) = true) (candles zeros_request))
    by (repeat constructor).
  split; [discriminate|]. split; [vm_compute; discriminate|]. split; [exact H|].
  apply (compute_zero_closes_average Compensated zeros_request);
    [discriminate | vm_compute; discriminate | exact H].
Defined.

(** X7. A [meta] call served at the very clock reading stored in
    [START_TIME] reports [uptime_seconds = 0.0]. *)
Theorem meta_uptime_zero_at_start (w0 w : World) :
  Float.is_finite (time_time w0) = true ->
  time_time w = time_time w0 ->
  meta (load w0) w !! "uptime_seconds" = Some (VFloat Float.zero).
Proof.
  intros F E. rewrite meta_uptime. unfold uptime_seconds. simpl START_TIME.
  rewrite E, sub_diag by assumption. reflexivity.
Qed.

Lemma meta_uptime_zero_at_start_witness :
  Float.is_finite (time_time w_boot) = true /\
  time_time w_boot = time_time w_boot /\
  meta (load w_boot) w_boot !! "uptime_seconds" = Some (VFloat Float.zero).
Proof.
  split; [reflexivity|]. split; [reflexivity|].
  apply (meta_uptime_zero_at_start w_boot w_boot); reflexivity.
Defined.

(** X8. When the wall clock reads no later than [START_TIME], [meta]
    reports an [uptime_seconds] that is [<= 0]. *)
Theorem meta_uptime_nonpositive_when_clock_behind (w0 w : World) :
  Float.is_finite (time_time w0) = true -> Float.valid (time_time w0) = true ->
  Float.is_finite (time_time w) = true -> Float.valid (time_time w) = true ->
  Float.leb (time_time w) (time_time w0) = true ->
  exists u, meta (load w0) w !! "uptime_seconds" = Some (VFloat u) /\
            Float.leb u Float.zero = true.
Proof.
  intros F0 V0 F V H. exists (uptime_seconds (load w0) w).
  split; [apply meta_uptime|].
  unfold uptime_seconds. simpl START_TIME.
  destruct (sub_nonpos _ _ V V0 F F0 H) as (u & Nu & Su).
  apply round2_same_value in Su. rewrite round2_opp in Su.
  rewrite (leb_same_value _ _ _ Float.zero Su (or_introl eq_refl)).
  apply leb_opp_nonneg, round2_nonneg. exact Nu.
Qed.

Lemma meta_uptime_nonpositive_when_clock_behind_witness :
  Float.is_finite (time_time w_boot) = true /\ Float.valid (time_time w_boot) = true /\
  Float.is_finite (time_time w_back) = true /\ Float.valid (time_time w_back) = true /\
  Float.leb (time_time w_back) (time_time w_boot) = true /\
  exists u, meta (load w_boot) w_back !! "uptime_seconds" = Some (VFloat u) /\
            Float.leb u Float.zero = true.
Proof.
  split; [reflexivity|]. split; [reflexivity|]. split; [reflexivity|].
  split; [reflexivity|]. split; [reflexivity|].
  apply (meta_uptime_nonpositive_when_clock_behind w_boot w_back); reflexivity.
Defined.
